(** * r.green.hydro.recommended: the command sequencer, embedded and verified

    The script [r.green.hydro.recommended.py] is glue code: it reads the
    parsed options, issues a sequence of GRASS GIS commands and keeps a
    registry of temporary maps for an exit-time cleanup.  The embedding
    below follows the script statement by statement in a state-and-exception
    monad.  The GIS session itself (what the commands compute) is outside
    the repository; it appears as a [session] record of replies and of a
    failure oracle, and as a log of the calls issued. *)

From stdpp Require Import base strings list gmap pretty.
From Stdlib Require Import Ascii ZArith QArith_base.

#[local] Open Scope Z_scope.

Abbreviation dict := (gmap string string).

#[global] Instance Q_eq_dec : EqDecision Q.
Proof. solve_decision. Defined.

(** ** The fragment of Python the script relies on *)

Module Py.

(** Values handed to the GRASS scripting library as keyword arguments, or
    compared by the script. [point.coords()] is a tuple of floats, kept
    here as a tuple of rationals: the script never computes with it. *)
Inductive value :=
| Str (s : string)
| Int (n : Z)
| Bool (b : bool)
| Tuple (xs : list Q).

#[global] Instance value_eq_dec : EqDecision value.
Proof. solve_decision. Defined.

(** [a == b]. A string never equals a number; [True == 1] and
    [False == 0] hold, as [bool] is a subclass of [int]. *)
Definition eq (a b : value) : bool :=
  match a, b with
  | Str s, Str t => String.eqb s t
  | Int m, Int n => bool_decide (m = n)
  | Bool x, Bool y => bool_decide (x = y)
  | Int m, Bool y | Bool y, Int m => bool_decide (m = if y then 1 else 0)
  | Tuple xs, Tuple ys => bool_decide (xs = ys)
  | _, _ => false
  end.

(** Truth value of a string in a condition: only the empty string is
    false. *)
Definition truth (s : string) : bool :=
  match s with
  | EmptyString => false
  | String _ _ => true
  end.

(** Space, tab, line feed, vertical tab, form feed, carriage return. *)
Definition is_space (c : ascii) : bool :=
  let n := Z.of_nat (Ascii.nat_of_ascii c) in
  (n =? 32) || ((9 <=? n) && (n <=? 13)).

Definition digit (c : ascii) : option Z :=
  let n := Z.of_nat (Ascii.nat_of_ascii c) in
  if (48 <=? n) && (n <=? 57) then Some (n - 48) else None.

Fixpoint lstrip (s : string) : string :=
  match s with
  | String c r => if is_space c then lstrip r else s
  | EmptyString => EmptyString
  end.

Definition strip (s : string) : string :=
  String.rev (lstrip (String.rev (lstrip s))).

Fixpoint digits (acc : Z) (s : string) : option Z :=
  match s with
  | EmptyString => Some acc
  | String c r =>
      match digit c with
      | Some v => digits (10 * acc + v) r
      | None => None
      end
  end.

Definition unsigned (s : string) : option Z :=
  match s with
  | EmptyString => None
  | String _ _ => digits 0 s
  end.

(** [int(s)] on a string, base ten, as Python 2 reads it: surrounding
    white space, an optional sign, at least one decimal digit. [None]
    stands for the [ValueError]. *)
Definition int (s : string) : option Z :=
  match strip s with
  | String "+" r => unsigned r
  | String "-" r => Z.opp <$> unsigned r
  | r => unsigned r
  end.

(** [c in s] for a one-character needle. *)
Fixpoint contains (c : ascii) (s : string) : bool :=
  match s with
  | EmptyString => false
  | String a r => Ascii.eqb a c || contains c r
  end.

(** [s.split(sep)] for a one-character separator. *)
Fixpoint split (sep : ascii) (s : string) : list string :=
  match s with
  | EmptyString => [EmptyString]
  | String a r =>
      if Ascii.eqb a sep then EmptyString :: split sep r
      else match split sep r with
           | h :: t => String a h :: t
           | [] => [String a EmptyString]
           end
  end.

(** Keyword arguments are looked up by name. *)
Fixpoint kwarg (k : string) (kw : list (string * value)) : option value :=
  match kw with
  | [] => None
  | (k', v) :: rest => if String.eqb k' k then Some v else kwarg k rest
  end.

End Py.

(** ** Options and flags delivered by the GRASS parser

    [gcore.parser()] returns two dictionaries with one entry per declared
    option and flag; every option value is a string (the declared [answer]
    when the caller gives none, the empty string when there is no
    [answer]), every flag a boolean. *)

Module Opt.
Record t := Make {
  elevation : string;
  river : string;
  efficiency : string;
  len_plant : string;
  len_min : string;
  distance : string;
  p_min : string;
  discharge_current : string;
  mfd : string;
  discharge_natural : string;
  percentage : string;
  area : string;
  buff : string;
  points_view : string;
  visibility_resolution : string;
  n_points : string;
  output_plant : string;
  output_point : string;
  output_vis : string }.
End Opt.

Module Flag.
Record t := Make { d : bool; c : bool }.
End Flag.

(** ** Calls into the GIS session *)

Inductive call :=
| RunCommand (prog : string) (kw : list (string * Py.value))
| ParseCommand (prog : string) (kw : list (string * Py.value))
| MapCalc (exp : string) (overwrite : bool)
| OpenVector (name mapset : string).

#[global] Instance call_eq_dec : EqDecision call.
Proof. solve_decision. Defined.

Inductive maptype := raster | vector.

#[global] Instance maptype_eq_dec : EqDecision maptype.
Proof. solve_decision. Defined.

(** A logged call together with its outcome: [true] when it returned. *)
Abbreviation event := (call * bool)%type.

(** The GIS session the script runs in. None of it is code of the
    repository: these are the answers of the engine, and [fails] tells,
    from the calls made so far, whether the next call ends in error. *)
Record session := Session {
  GRASS_OVERWRITE : bool;
  region_m : dict;
  raster_region : string → dict;
  res_region : string → dict → dict;
  points_of : string → string → list (list Q);
  fails : list event → call → bool }.

(** List objects live in a heap and are named by reference, so that the
    registry handed to [atexit.register] and the one appended to later are
    one object. *)
Abbreviation ref := nat (only parsing).

(** [atexit.register(cleanup, rast=.., vect=.., debug=..)]: the two lists
    are passed by reference, the boolean by value. *)
Inductive handler := Cleanup (rast vect : ref) (debug : bool).

Record state := State {
  gis : session;
  globals : option (Opt.t * Flag.t);
  heap : list (list string);
  exitfuncs : list handler;
  trace : list event;
  region : dict;
  stdout : list string;
  deleted : list (maptype * string) }.

Definition with_globals (g : option (Opt.t * Flag.t)) (st : state) : state :=
  State (gis st) g (heap st) (exitfuncs st) (trace st) (region st) (stdout st) (deleted st).
Definition with_heap (h : list (list string)) (st : state) : state :=
  State (gis st) (globals st) h (exitfuncs st) (trace st) (region st) (stdout st) (deleted st).
Definition with_exitfuncs (l : list handler) (st : state) : state :=
  State (gis st) (globals st) (heap st) l (trace st) (region st) (stdout st) (deleted st).
Definition with_trace (t : list event) (st : state) : state :=
  State (gis st) (globals st) (heap st) (exitfuncs st) t (region st) (stdout st) (deleted st).
Definition with_region (r : dict) (st : state) : state :=
  State (gis st) (globals st) (heap st) (exitfuncs st) (trace st) r (stdout st) (deleted st).
Definition with_stdout (o : list string) (st : state) : state :=
  State (gis st) (globals st) (heap st) (exitfuncs st) (trace st) (region st) o (deleted st).
Definition with_deleted (l : list (maptype * string)) (st : state) : state :=
  State (gis st) (globals st) (heap st) (exitfuncs st) (trace st) (region st) (stdout st) l.

(** ** The monad: state and Python exceptions *)

Inductive exn :=
| NameError (name : string)
| KeyError (key : string)
| ValueError (msg : string)
| CalledModuleError (c : call)
| OpenError (name : string)
| SystemExit (code : Z).

Definition M (A : Type) : Type := state → (exn + A) * state.

#[global] Instance M_ret : MRet M := λ A (a : A) st, (inr a, st).
#[global] Instance M_bind : MBind M := λ A B (f : A → M B) (m : M A) st,
  match m st with
  | (inr a, st1) => f a st1
  | (inl e, st1) => (inl e, st1)
  end.

Definition raise {A} (e : exn) : M A := λ st, (inl e, st).

(** Reading from the state. *)
Definition gets {A} (f : state → A) : M A := λ st, (inr (f st), st).

(** [[]]: a fresh list object. *)
Definition new_list : M ref := λ st,
  (inr (length (heap st)), with_heap (heap st ++ [[]]) st).

(** [l.append(x)] *)
Definition append (l : ref) (x : string) : M unit := λ st,
  (inr tt, with_heap (alter (λ xs, xs ++ [x]) l (heap st)) st).

Definition atexit_register (h : handler) : M unit := λ st,
  (inr tt, with_exitfuncs (h :: exitfuncs st) st).

(** [print(..)] and [msgr.warning(..)] both end on the terminal. *)
Definition print (s : string) : M unit := λ st,
  (inr tt, with_stdout (stdout st ++ [s]) st).
Definition warning (s : string) : M unit := print ("WARNING: " +:+ s).

(** The module-level names [options] and [flags]. *)
Definition global_options : M Opt.t := λ st,
  match globals st with
  | Some (o, _) => (inr o, st)
  | None => (inl (NameError "options"), st)
  end.
Definition global_flags : M Flag.t := λ st,
  match globals st with
  | Some (_, f) => (inr f, st)
  | None => (inl (NameError "flags"), st)
  end.

(** [d[k]] *)
Definition getitem (d : dict) (k : string) : M string :=
  match d !! k with
  | Some v => mret v
  | None => raise (KeyError k)
  end.

(** ** The scripting library, as far as the script uses it *)

(** What a failing call raises: [run_command] and [parse_command] raise
    [CalledModuleError]; [mapcalc] catches it and calls [fatal], that is
    [sys.exit(1)]; opening a vector map raises an [OpenError]. *)
Definition error_of (c : call) : exn :=
  match c with
  | RunCommand _ _ | ParseCommand _ _ => CalledModuleError c
  | MapCalc _ _ => SystemExit 1
  | OpenVector name _ => OpenError name
  end.

(** Every call is logged with its outcome; a failing call raises. *)
Definition issue (c : call) : M unit := λ st,
  let ok := negb (fails (gis st) (trace st) c) in
  let st1 := with_trace (trace st ++ [(c, ok)]) st in
  if ok then (inr tt, st1) else (inl (error_of c), st1).

Definition region_keys : list string :=
  ["rows"; "cols"; "n"; "s"; "e"; "w"; "nsres"; "ewres"].

(** The effect of one [g.region] argument on the active region:
    [raster=] adopts the grid of a raster map, [res=] changes the
    resolution (the engine recomputes what depends on it), and each of the
    eight region fields is assigned as given. *)
Definition g_region_arg (g : session) (r : dict) (kv : string * Py.value) : dict :=
  match kv with
  | (k, Py.Str v) =>
      if String.eqb k "raster" then raster_region g v
      else if String.eqb k "res" then res_region g v r
      else if existsb (String.eqb k) region_keys then <[k := v]> r
      else r
  | _ => r
  end.

Definition g_region (g : session) (kw : list (string * Py.value)) (r : dict) : dict :=
  foldl (g_region_arg g) r kw.

Definition engine_effect (prog : string) (kw : list (string * Py.value)) : M unit := λ st,
  if String.eqb prog "g.region"
  then (inr tt, with_region (g_region (gis st) kw (region st)) st)
  else (inr tt, st).

(** [gcore.run_command(prog, **kw)] *)
Definition run_command (prog : string) (kw : list (string * Py.value)) : M unit :=
  issue (RunCommand prog kw);;
  engine_effect prog kw.

(** [gcore.parse_command('g.region', flags=..)]: the printed region parsed
    into a dictionary of strings. With [flags='m'] the resolution is
    reported in meters, which the session answers from [region_m]. *)
Definition parse_command (prog : string) (kw : list (string * Py.value)) : M dict :=
  issue (ParseCommand prog kw);;
  gets (λ st, if Py.eq (default (Py.Str EmptyString) (Py.kwarg "flags" kw)) (Py.Str "m")
              then region_m (gis st) else region st).

(** [mapcalc(exp, overwrite=..)] *)
Definition mapcalc (exp : string) (overwrite : bool) : M unit :=
  issue (MapCalc exp overwrite).

(** [gcore.overwrite()] *)
Definition overwrite : M bool := gets (λ st, GRASS_OVERWRITE (gis st)).

(** [vec = VectorTopo(pl, mapset=mset, mode='r'); vec.open("r")], giving
    the features the later iteration yields. *)
Definition VectorTopo_open (pl mset : string) : M (list (list Q)) :=
  issue (OpenVector pl mset);;
  gets (λ st, points_of (gis st) pl mset).

(** [for i, x in enumerate(xs): acc = body(i, x, acc)] *)
Fixpoint for_enumerate {A B} (i : nat) (xs : list A) (acc : B)
    (body : nat → A → B → M B) : M B :=
  match xs with
  | [] => mret acc
  | x :: rest => acc' ← body i x acc; for_enumerate (S i) rest acc' body
  end.

(** ** The script *)

(** Lines 219-221. *)
Definition set_new_region (new_region : string) : M unit :=
  run_command "g.region" [("res", Py.Str new_region)].

(** Lines 224-229. The keyword arguments are evaluated in the order
    written, so the first missing key is the one reported. *)
Definition set_old_region (info : dict) : M unit :=
  rows ← getitem info "rows";
  e ← getitem info "e";
  cols ← getitem info "cols";
  n ← getitem info "n";
  s ← getitem info "s";
  w ← getitem info "w";
  ewres ← getitem info "ewres";
  nsres ← getitem info "nsres";
  run_command "g.region"
    [("rows", Py.Str rows); ("e", Py.Str e); ("cols", Py.Str cols);
     ("n", Py.Str n); ("s", Py.Str s); ("w", Py.Str w);
     ("ewres", Py.Str ewres); ("nsres", Py.Str nsres)].

(** Lines 259-263 of [main]: the region guard. [info] holds strings, and
    the script compares them with the integer [0]. *)
Definition region_guard (dtm : string) : M unit :=
  info ← parse_command "g.region" [("flags", Py.Str "m")];
  nsres ← getitem info "nsres";
  degenerate ← (if Py.eq (Py.Str nsres) (Py.Int 0) then mret true
                else ewres ← getitem info "ewres";
                     mret (Py.eq (Py.Str ewres) (Py.Int 0)));
  if degenerate : bool then
    warning "set region to elevation raster";;
    run_command "g.region" [("raster", Py.Str dtm)]
  else mret tt.

(** Lines 265-280 of [main]: the exclusion area. Returns the value of
    [river] after the block. *)
Definition exclude_area (OVW : bool) (TMPVECT : ref)
    (river area buff : string) : M string :=
  if Py.truth area then
    area ← (if Py.truth buff then
              run_command "v.buffer"
                [("input", Py.Str area); ("output", Py.Str "buff_area");
                 ("distance", Py.Str buff); ("overwrite", Py.Bool OVW)];;
              append TMPVECT "buff_area";;
              mret "buff_area"
            else mret area);
    run_command "v.overlay"
      [("flags", Py.Str "t"); ("ainput", Py.Str river); ("binput", Py.Str area);
       ("operator", Py.Str "not"); ("output", Py.Str "tmp1_river");
       ("overwrite", Py.Bool OVW)];;
    append TMPVECT "tmp1_river";;
    mret "tmp1_river"
  else mret river.

(** Lines 289-297: the body of the loop over the viewpoints; [string_] is
    the script's variable [string]. *)
Definition viewshed (OVW : bool) (TMPRAST : ref) (dtm : string)
    (i : nat) (point : list Q) (string_ : string) : M string :=
  let out := "visual_" +:+ pretty i in
  run_command "r.viewshed"
    [("input", Py.Str dtm); ("output", Py.Str out);
     ("coordinates", Py.Tuple point); ("overwrite", Py.Bool OVW);
     ("memory", Py.Int 1000); ("flags", Py.Str "b");
     ("max_distance", Py.Int 4000)];;
  append TMPRAST out;;
  mret (string_ +:+ "+" +:+ out).

(** Lines 282-322 of [main]: the exclusion of what the viewpoints see.
    Returns the value of [river] after the block. *)
Definition exclude_visible (OVW : bool) (TMPRAST TMPVECT : ref)
    (dtm river points_view new_region final_vis n_points : string) : M string :=
  if Py.truth points_view then
    info_old ← parse_command "g.region" [("flags", Py.Str "pg")];
    set_new_region new_region;;
    '(pl, mset) ← (if Py.contains "@" points_view then
                     match Py.split "@" points_view with
                     | [a; b] => mret (a, b)
                     | _ => raise (ValueError "too many values to unpack")
                     end
                   else mret (points_view, EmptyString));
    vec ← VectorTopo_open pl mset;
    string_ ← for_enumerate 0 vec "0" (viewshed OVW TMPRAST dtm);
    let formula := "final_vis = " +:+ string_ in
    append TMPRAST "final_vis";;
    mapcalc formula OVW;;
    set_old_region info_old;;
    run_command "r.to.vect"
      [("flags", Py.Str "v"); ("overwrite", Py.Bool OVW);
       ("input", Py.Str "final_vis"); ("output", Py.Str "tmp_vis");
       ("type", Py.Str "area")];;
    append TMPVECT "tmp_vis";;
    n ← from_option mret (raise (ValueError "invalid literal for int()"))
          (Py.int n_points);
    let where_ := if bool_decide (0 < n) then "cat<" +:+ n_points else "cat=0" in
    run_command "v.db.droprow"
      [("input", Py.Str "tmp_vis"); ("where", Py.Str where_);
       ("output", Py.Str final_vis); ("overwrite", Py.Bool OVW)];;
    run_command "v.overlay"
      [("flags", Py.Str "t"); ("ainput", Py.Str river);
       ("binput", Py.Str final_vis); ("operator", Py.Str "not");
       ("output", Py.Str "tmp2_river"); ("overwrite", Py.Bool OVW)];;
    append TMPVECT "tmp2_river";;
    mret "tmp2_river"
  else mret river.

(** Lines 326-338 of [main]: the legal discharge. Returns the value of
    [discharge_current] after the block. *)
Definition adjust_discharge (OVW : bool) (TMPRAST : ref)
    (discharge_current discharge_natural mfd percentage : string) : M string :=
  if Py.truth mfd then
    let formula := "tmp_discharge=" +:+ discharge_current +:+ "-" +:+ mfd in
    mapcalc formula OVW;;
    append TMPRAST "tmp_discharge";;
    mret "tmp_discharge"
  else if Py.truth discharge_natural then
    let formula := "tmp_discharge=" +:+ discharge_current +:+ "-"
                   +:+ discharge_natural +:+ "*" +:+ percentage +:+ "/100.0" in
    mapcalc formula OVW;;
    append TMPRAST "tmp_discharge";;
    mret "tmp_discharge"
  else mret discharge_current.

(** Lines 232-353. The parameters are never read: the body uses the
    module-level [options] and [flags]. [DEBUG] is bound to [False] when
    the cleanup is registered and rebound afterwards. *)
Definition main (opts : Opt.t) (flgs : Flag.t) : M unit :=
  TMPRAST ← new_list;
  TMPVECT ← new_list;
  let DEBUG := false in
  atexit_register (Cleanup TMPRAST TMPVECT DEBUG);;
  OVW ← overwrite;
  options ← global_options;
  let dtm := Opt.elevation options in
  let river := Opt.river options in
  let discharge_current := Opt.discharge_current options in
  let discharge_natural := Opt.discharge_natural options in
  let mfd := Opt.mfd options in
  let len_plant := Opt.len_plant options in
  let len_min := Opt.len_min options in
  let distance := Opt.distance options in
  let output_plant := Opt.output_plant options in
  let output_point := Opt.output_point options in
  let area := Opt.area options in
  let buff := Opt.buff options in
  let efficiency := Opt.efficiency options in
  flags ← global_flags;
  let DEBUG := Flag.d flags in
  let points_view := Opt.points_view options in
  let new_region := Opt.visibility_resolution options in
  let final_vis := Opt.output_vis options in
  let n_points := Opt.n_points options in
  let p_min := Opt.p_min options in
  let percentage := Opt.percentage options in
  region_guard dtm;;
  river ← exclude_area OVW TMPVECT river area buff;
  river ← exclude_visible OVW TMPRAST TMPVECT dtm river points_view
            new_region final_vis n_points;
  discharge_current ← adjust_discharge OVW TMPRAST discharge_current
                        discharge_natural mfd percentage;
  run_command "r.green.hydro.optimal"
    [("flags", Py.Str "c"); ("discharge", Py.Str discharge_current);
     ("river", Py.Str river); ("elevation", Py.Str dtm);
     ("len_plant", Py.Str len_plant); ("output_plant", Py.Str output_plant);
     ("output_point", Py.Str output_point); ("distance", Py.Str distance);
     ("len_min", Py.Str len_min); ("efficiency", Py.Str efficiency);
     ("p_min", Py.Str p_min)];;
  print "r.green.hydro.recommended completed!".

(** ** The process: start-up check, parser, exit *)

(** The exit status of the process: [sys.exit(None)] is success, an
    uncaught exception ends the interpreter with status 1. *)
Definition exit_status (r : exn + unit) : Z :=
  match r with
  | inr _ => 0
  | inl (SystemExit code) => code
  | inl _ => 1
  end.

(** Lines 211-216 and 355-357: the module body, up to the point where
    the interpreter exits with the status returned. [argv] stands for what
    [gcore.parser()] returns. *)
Definition script (environ : dict) (argv : Opt.t * Flag.t) (st : state) : Z * state :=
  let st := (new_list st).2 in
  match environ !! "GISBASE" with
  | None =>
      let st := (print "You must be in GRASS GIS to run this program." st).2 in
      (1, st)
  | Some _ =>
      let st := with_globals (Some argv) st in
      let '(r, st) := main argv.1 argv.2 st in
      (exit_status r, st)
  end.

(** Modelled from the spec: [cleanup] is imported from [libgreen.utils],
    a module of the r.green library that is not among the sources at hand.
    The specification (4.5) says that it "deletes every raster and vector
    name accumulated in the temporary-artifact registry" and that "a debug
    flag suppresses deletion". *)
Definition cleanup (rast vect : list string) (debug : bool) (st : state) : state :=
  if debug then st
  else with_deleted (deleted st ++ ((raster,.) <$> rast) ++ ((vector,.) <$> vect)) st.

(** Calling a registered handler: the lists are read when it runs. *)
Definition call_handler (st : state) (h : handler) : state :=
  match h with
  | Cleanup rast vect debug =>
      cleanup (default [] (heap st !! rast)) (default [] (heap st !! vect)) debug st
  end.

(** Interpreter exit: the handlers run, last registered first. *)
Definition run_exitfuncs (st : state) : state :=
  foldl call_handler st (exitfuncs st).

(** The whole process: the module body, then the exit handlers. *)
Definition process (environ : dict) (argv : Opt.t * Flag.t) (st : state) : Z * state :=
  let '(status, st) := script environ argv st in
  (status, run_exitfuncs st).

(** The interpreter state when the script starts in session [g] with
    active region [r]. *)
Definition boot (g : session) (r : dict) : state :=
  State g None [] [] [] r [] [].

(** The state in which [main] is entered: the module-level [TMPRAST] is
    the only list, and the parser has delivered [argv]. *)
Definition entered (g : session) (r : dict) (argv : Opt.t * Flag.t) : state :=
  State g (Some argv) [[]] [] [] r [] [].

(** ** Reasoning about runs *)

(** Weakest precondition: [Q] holds of the outcome of [m] from [st]. *)
Definition wp {A} (m : M A) (Q : exn + A → state → Prop) (st : state) : Prop :=
  Q (m st).1 (m st).2.

(** What does not change while [main] runs its blocks. *)
Definition frame (st st' : state) : Prop :=
  gis st' = gis st ∧ globals st' = globals st ∧ exitfuncs st' = exitfuncs st
  ∧ deleted st' = deleted st ∧ length (heap st') = length (heap st).

(** ** The calls each block of [main] can make

    One constructor per call site, with the arguments the script passes
    written in terms of the parsed options. *)

Definition guard_call : call := ParseCommand "g.region" [("flags", Py.Str "m")].

Definition to_vect_call (OVW : bool) : call :=
  RunCommand "r.to.vect"
    [("flags", Py.Str "v"); ("overwrite", Py.Bool OVW);
     ("input", Py.Str "final_vis"); ("output", Py.Str "tmp_vis");
     ("type", Py.Str "area")].

(** The map name and mapset the viewpoint option unpacks to, when it
    does. *)
Definition view_map (points_view : string) : option (string * string) :=
  if Py.contains "@" points_view then
    match Py.split "@" points_view with
    | [a; b] => Some (a, b)
    | _ => None
    end
  else Some (points_view, EmptyString).

Section calls.
Variables (o : Opt.t) (OVW : bool).

(** The value of [area] when the first overlay is called. *)
Definition area_binput : string :=
  if Py.truth (Opt.buff o) then "buff_area" else Opt.area o.

(** The value of [river] after the exclusion-area block. *)
Definition river1 : string :=
  if Py.truth (Opt.area o) then "tmp1_river" else Opt.river o.

(** The value of [river] after the visibility block. *)
Definition river2 : string :=
  if Py.truth (Opt.points_view o) then "tmp2_river" else river1.

Definition buffer_call : call :=
  RunCommand "v.buffer"
    [("input", Py.Str (Opt.area o)); ("output", Py.Str "buff_area");
     ("distance", Py.Str (Opt.buff o)); ("overwrite", Py.Bool OVW)].

Definition area_overlay_call : call :=
  RunCommand "v.overlay"
    [("flags", Py.Str "t"); ("ainput", Py.Str (Opt.river o));
     ("binput", Py.Str area_binput); ("operator", Py.Str "not");
     ("output", Py.Str "tmp1_river"); ("overwrite", Py.Bool OVW)].

Inductive area_calls : call → Prop :=
| ac_buffer :
    Py.truth (Opt.area o) = true → Py.truth (Opt.buff o) = true →
    area_calls buffer_call
| ac_overlay :
    Py.truth (Opt.area o) = true → area_calls area_overlay_call.

Definition viewshed_call (i : nat) (point : list Q) : call :=
  RunCommand "r.viewshed"
    [("input", Py.Str (Opt.elevation o)); ("output", Py.Str ("visual_" +:+ pretty i));
     ("coordinates", Py.Tuple point); ("overwrite", Py.Bool OVW);
     ("memory", Py.Int 1000); ("flags", Py.Str "b");
     ("max_distance", Py.Int 4000)].

Definition old_region_call (rows e cols n s w ewres nsres : string) : call :=
  RunCommand "g.region"
    [("rows", Py.Str rows); ("e", Py.Str e); ("cols", Py.Str cols);
     ("n", Py.Str n); ("s", Py.Str s); ("w", Py.Str w);
     ("ewres", Py.Str ewres); ("nsres", Py.Str nsres)].

(** The selection handed to [v.db.droprow] when [int(n_points)] is [n]. *)
Definition where_clause (n : Z) : string :=
  if bool_decide (0 < n) then "cat<" +:+ Opt.n_points o else "cat=0".

Definition droprow_call (n : Z) : call :=
  RunCommand "v.db.droprow"
    [("input", Py.Str "tmp_vis"); ("where", Py.Str (where_clause n));
     ("output", Py.Str (Opt.output_vis o)); ("overwrite", Py.Bool OVW)].

Definition visible_overlay_call : call :=
  RunCommand "v.overlay"
    [("flags", Py.Str "t"); ("ainput", Py.Str river1);
     ("binput", Py.Str (Opt.output_vis o)); ("operator", Py.Str "not");
     ("output", Py.Str "tmp2_river"); ("overwrite", Py.Bool OVW)].

Inductive visible_calls : call → Prop :=
| vc_region_pg : visible_calls (ParseCommand "g.region" [("flags", Py.Str "pg")])
| vc_new_region :
    visible_calls (RunCommand "g.region" [("res", Py.Str (Opt.visibility_resolution o))])
| vc_open pl mset :
    view_map (Opt.points_view o) = Some (pl, mset) →
    visible_calls (OpenVector pl mset)
| vc_viewshed i point : visible_calls (viewshed_call i point)
| vc_final_vis terms : visible_calls (MapCalc ("final_vis = " +:+ terms) OVW)
| vc_old_region rows e cols n s w ewres nsres :
    visible_calls (old_region_call rows e cols n s w ewres nsres)
| vc_to_vect : visible_calls (to_vect_call OVW)
| vc_droprow n :
    Py.int (Opt.n_points o) = Some n → visible_calls (droprow_call n)
| vc_overlay : visible_calls visible_overlay_call.

(** The map-algebra expression of the discharge adjustment, if any. *)
Definition adjustment : option string :=
  if Py.truth (Opt.mfd o) then
    Some ("tmp_discharge=" +:+ Opt.discharge_current o +:+ "-" +:+ Opt.mfd o)
  else if Py.truth (Opt.discharge_natural o) then
    Some ("tmp_discharge=" +:+ Opt.discharge_current o +:+ "-"
          +:+ Opt.discharge_natural o +:+ "*" +:+ Opt.percentage o +:+ "/100.0")
  else None.

(** The value of [discharge_current] after the adjustment block. *)
Definition usable_discharge : string :=
  match adjustment with
  | Some _ => "tmp_discharge"
  | None => Opt.discharge_current o
  end.

Definition adjustment_calls (c : call) : Prop :=
  ∃ exp, adjustment = Some exp ∧ c = MapCalc exp OVW.

Definition optimal_call : call :=
  RunCommand "r.green.hydro.optimal"
    [("flags", Py.Str "c"); ("discharge", Py.Str usable_discharge);
     ("river", Py.Str river2); ("elevation", Py.Str (Opt.elevation o));
     ("len_plant", Py.Str (Opt.len_plant o));
     ("output_plant", Py.Str (Opt.output_plant o));
     ("output_point", Py.Str (Opt.output_point o));
     ("distance", Py.Str (Opt.distance o)); ("len_min", Py.Str (Opt.len_min o));
     ("efficiency", Py.Str (Opt.efficiency o)); ("p_min", Py.Str (Opt.p_min o))].

(** Every call a run of [main] can make. *)
Inductive emitted : call → Prop :=
| em_guard : emitted guard_call
| em_area c : area_calls c → emitted c
| em_visible c : Py.truth (Opt.points_view o) = true → visible_calls c → emitted c
| em_adjust c : adjustment_calls c → emitted c
| em_optimal : emitted optimal_call.

(** Why a run can end in an exception: a call failed, the region answer
    lacks a key the script reads, the viewpoint name does not unpack to
    name and mapset, or [n_points] is no integer literal. [reg] is the
    region that [g.region -pg] reports. *)
Inductive cause (g : session) (reg : dict) : exn → Prop :=
| cause_fail c h : fails g h c = true → cause g reg (error_of c)
| cause_region_m k :
    k ∈ ["nsres"; "ewres"] → region_m g !! k = None → cause g reg (KeyError k)
| cause_region k :
    Py.truth (Opt.points_view o) = true → k ∈ region_keys → reg !! k = None →
    cause g reg (KeyError k)
| cause_unpack msg :
    Py.truth (Opt.points_view o) = true → view_map (Opt.points_view o) = None →
    cause g reg (ValueError msg)
| cause_int msg :
    Py.truth (Opt.points_view o) = true → Py.int (Opt.n_points o) = None →
    cause g reg (ValueError msg).
End calls.

(** The run of a block from [st] to [st']: the frame is kept, the calls
    logged are among [calls], a normal end saw every call return, and an
    exception has one of the [causes]. *)
Definition runs {A} (calls : call → Prop) (causes : exn → Prop)
    (st : state) (r : exn + A) (st' : state) : Prop :=
  frame st st' ∧
  ∃ t, trace st' = trace st ++ t ∧ Forall (λ ev, calls ev.1) t ∧
       match r with
       | inr _ => Forall (λ ev, ev.2 = true) t
       | inl e => causes e
       end.

(** The eight region fields agree. *)
Definition same_region (r r' : dict) : Prop :=
  ∀ k, k ∈ region_keys → r' !! k = r !! k.

(** The calls made before the discharge adjustment. *)
Definition prefix_calls (o : Opt.t) (OVW : bool) (c : call) : Prop :=
  c = guard_call ∨ area_calls o OVW c
  ∨ (Py.truth (Opt.points_view o) = true ∧ visible_calls o OVW c).

(** What a run of [main] from [st] leaves behind: the cleanup handler on
    two fresh registries, and a log made of the calls of the first three
    blocks, then of the adjustment, then of the delegation. The delegated
    routine is called only after everything before it returned. *)
Definition main_post (o : Opt.t) (st : state) (r : exn + unit) (st' : state) : Prop :=
  let OVW := GRASS_OVERWRITE (gis st) in
  gis st' = gis st ∧ globals st' = globals st ∧ deleted st' = deleted st
  ∧ exitfuncs st' = Cleanup (length (heap st)) (S (length (heap st))) false :: exitfuncs st
  ∧ length (heap st') = S (S (length (heap st)))
  ∧ ∃ t0 t1 t2,
      trace st' = trace st ++ t0 ++ t1 ++ t2
      ∧ Forall (λ ev, prefix_calls o OVW ev.1) t0
      ∧ Forall (λ ev, adjustment_calls o OVW ev.1) t1
      ∧ (t2 = [] ∨ ∃ ok, t2 = [(optimal_call o, ok)]
                        ∧ Forall (λ ev, ev.2 = true) t0
                        ∧ t1 = (λ e, (MapCalc e OVW, true)) <$> option_list (adjustment o))
      ∧ match r with
        | inr _ => t2 = [(optimal_call o, true)]
        | inl e => cause o (gis st) (region st) e
        end.

(** ** Maps created by the calls *)

(** The text of [s] before the first [c]. *)
Fixpoint before (c : ascii) (s : string) : string :=
  match s with
  | EmptyString => EmptyString
  | String a r => if Ascii.eqb a c then EmptyString else String a (before c r)
  end.

(** The raster a map-algebra expression [name = expression] assigns. *)
Definition mapcalc_target (exp : string) : string := Py.strip (before "=" exp).

Definition output_of (kw : list (string * Py.value)) : option string :=
  match Py.kwarg "output" kw with
  | Some (Py.Str name) => Some name
  | _ => None
  end.

(** The intermediate map a call creates: the output of the buffer, overlay,
    viewshed and vectorisation commands and the target of a map-algebra
    expression. The outputs of [v.db.droprow] and of the delegated routine
    are the results the caller asked for. *)
Definition intermediate_of (c : call) : option (maptype * string) :=
  match c with
  | RunCommand prog kw =>
      if String.eqb prog "v.buffer" || String.eqb prog "v.overlay"
         || String.eqb prog "r.to.vect"
      then (vector,.) <$> output_of kw
      else if String.eqb prog "r.viewshed" then (raster,.) <$> output_of kw
      else None
  | MapCalc exp _ => Some (raster, mapcalc_target exp)
  | _ => None
  end.

(** Whether a call is a map-algebra assignment to [name]. *)
Definition assigns (name : string) (c : call) : bool :=
  match c with
  | MapCalc exp _ => String.eqb (mapcalc_target exp) name
  | _ => false
  end.

(** The registry a map of a given type belongs to. *)
Definition ref_of (TMPRAST TMPVECT : ref) (k : maptype) : ref :=
  match k with raster => TMPRAST | vector => TMPVECT end.

Definition names_at (h : list (list string)) (l : ref) : list string :=
  default [] (h !! l).

(** Registries only grow. *)
Definition heap_le (h h' : list (list string)) : Prop :=
  ∀ l n, n ∈ names_at h l → n ∈ names_at h' l.

(** The intermediate map of a call that returned is in its registry. *)
Definition registered (TMPRAST TMPVECT : ref) (h : list (list string)) (ev : event) : Prop :=
  ev.2 = true → ∀ k n, intermediate_of ev.1 = Some (k, n) →
  n ∈ names_at h (ref_of TMPRAST TMPVECT k).

Definition keeps (TMPRAST TMPVECT : ref) (st st' : state) : Prop :=
  heap_le (heap st) (heap st') ∧ length (heap st') = length (heap st)
  ∧ ∃ t, trace st' = trace st ++ t ∧ Forall (registered TMPRAST TMPVECT (heap st')) t.

(** ** The attribute filter of the engine *)

(** The features a [where] clause selects, by category. The script writes
    the two forms [cat<N] and [cat=N]. *)
Definition where_selects (w : string) (cat : Z) : option bool :=
  match w with
  | String "c" (String "a" (String "t" (String "<" n))) =>
      (λ n, bool_decide (cat < n)) <$> Py.int n
  | String "c" (String "a" (String "t" (String "=" n))) =>
      (λ n, bool_decide (cat = n)) <$> Py.int n
  | _ => None
  end.

(** [v.db.droprow input=.. where=.. output=..] "removes a vector feature
    from a vector map through attribute selection": the output holds the
    features of the input that the clause does not select. Features are
    given by their category, which [r.to.vect -v] takes from the raster
    value. *)
Definition v_db_droprow (where_ : string) (cats : list Z) : option (list Z) :=
  match where_selects where_ 0 with
  | None => None
  | Some _ =>
      Some (List.filter (λ cat, negb (default false (where_selects where_ cat))) cats)
  end.

(** ** The region across the visibility block *)

(** The vectorisation of the visibility raster has not been called yet. *)
Definition unvectorised (OVW : bool) (st : state) : Prop :=
  ∀ ok, (to_vect_call OVW, ok) ∉ trace st.

(** The call of [set_old_region] on a dictionary with the fields of
    [reg]. *)
Definition restoring (reg : dict) (c : call) : Prop :=
  ∃ rows e cols n s w ewres nsres,
    c = old_region_call rows e cols n s w ewres nsres
    ∧ reg !! "rows" = Some rows ∧ reg !! "e" = Some e ∧ reg !! "cols" = Some cols
    ∧ reg !! "n" = Some n ∧ reg !! "s" = Some s ∧ reg !! "w" = Some w
    ∧ reg !! "ewres" = Some ewres ∧ reg !! "nsres" = Some nsres.

(** Once the vectorisation has been called, the restoring call has
    returned and the region has the eight fields of [reg] again. *)
Definition restored (OVW : bool) (reg : dict) (st : state) : Prop :=
  unvectorised OVW st
  ∨ (same_region reg (region st) ∧ ∃ c, restoring reg c ∧ (c, true) ∈ trace st).

(** ** What a run needs from its inputs *)

(** The region answers carry the keys the script reads, the viewpoint
    name unpacks, and [n_points] is an integer literal. *)
Definition readable (g : session) (reg : dict) (o : Opt.t) : Prop :=
  (∀ k, k ∈ ["nsres"; "ewres"] → is_Some (region_m g !! k))
  ∧ (Py.truth (Opt.points_view o) = true →
     (∀ k, k ∈ region_keys → is_Some (reg !! k))
     ∧ is_Some (view_map (Opt.points_view o))
     ∧ is_Some (Py.int (Opt.n_points o))).

(** ** The polygon filter as the specification words it

    "Keep only polygons whose identifier is below a caller-specified count
    (or, if no count given, keep only the background polygon, category
    zero)". *)
Definition kept_as_specified (n : Z) (cats : list Z) : list Z :=
  if bool_decide (0 < n) then List.filter (λ cat, bool_decide (cat < n)) cats
  else List.filter (λ cat, bool_decide (cat = 0)) cats.

(** ** Sample inputs *)

Definition sample_region : dict :=
  list_to_map
    [("n", "228500"); ("s", "215000"); ("w", "630000"); ("e", "645000");
     ("nsres", "10"); ("ewres", "10"); ("rows", "1350"); ("cols", "1500")].

(** A session in which every call returns; it reports the resolution
    [res_m] in meters to [g.region -m]. *)
Definition sample_session (res_m : string) : session :=
  {| GRASS_OVERWRITE := false;
     region_m := list_to_map [("nsres", res_m); ("ewres", res_m)];
     raster_region := λ _, sample_region;
     res_region := λ res r,
       <["nsres" := res]> (<["ewres" := res]> (<["rows" := "54"]> (<["cols" := "60"]> r)));
     points_of := λ _ _, [[Qmake 637500 1; Qmake 221750 1]; [Qmake 640000 1; Qmake 219000 1]];
     fails := λ _ _, false |}.

(** The same session, except that [v.buffer] fails. *)
Definition failing_buffer_session : session :=
  {| GRASS_OVERWRITE := false;
     region_m := region_m (sample_session "10");
     raster_region := raster_region (sample_session "10");
     res_region := res_region (sample_session "10");
     points_of := points_of (sample_session "10");
     fails := λ _ c,
       match c with
       | RunCommand prog _ => String.eqb prog "v.buffer"
       | _ => false
       end |}.

Definition sample_environ : dict := {[ "GISBASE" := "/usr/lib/grass70" ]}.

(** The options with their declared answers, and the optional ones as
    given. *)
Definition sample_options (mfd discharge_natural area buff points_view n_points
    output_vis : string) : Opt.t :=
  {| Opt.elevation := "dem"; Opt.river := "streams"; Opt.efficiency := "1";
     Opt.len_plant := "100"; Opt.len_min := "10"; Opt.distance := "0.5";
     Opt.p_min := "10.0"; Opt.discharge_current := "discharge";
     Opt.mfd := mfd; Opt.discharge_natural := discharge_natural;
     Opt.percentage := "20.00"; Opt.area := area; Opt.buff := buff;
     Opt.points_view := points_view; Opt.visibility_resolution := "250";
     Opt.n_points := n_points; Opt.output_plant := "plants";
     Opt.output_point := "points"; Opt.output_vis := output_vis |}.

(** No optional input at all. *)
Definition plain_options : Opt.t :=
  sample_options EmptyString EmptyString EmptyString "0" EmptyString "0" EmptyString.

(** A minimum flow discharge of 2. *)
Definition mfd_options : Opt.t :=
  sample_options "2" EmptyString EmptyString "0" EmptyString "0" EmptyString.

(** An exclusion area, the buffer left at its declared answer [0]. *)
Definition park_options : Opt.t :=
  sample_options EmptyString EmptyString "park" "0" EmptyString "0" EmptyString.

(** An exclusion area buffered by 50. *)
Definition buffered_park_options : Opt.t :=
  sample_options EmptyString EmptyString "park" "50" EmptyString "0" EmptyString.

(** Viewpoints, with a count of 2. *)
Definition view_options : Opt.t :=
  sample_options EmptyString EmptyString EmptyString "0" "viewpoints@PERMANENT" "2" "seen".

Definition no_flags : Flag.t := Flag.Make false false.
Definition debug_flags : Flag.t := Flag.Make true false.

(** ** Runs in which a call fails *)

(** Every call in the log returned. *)
Definition settled (t : list event) : Prop := Forall (λ ev, ev.2 = true) t.

(** Every call returned, except possibly the last one. *)
Definition aborted (t : list event) : Prop :=
  settled t ∨ ∃ t' c, t = t' ++ [(c, false)] ∧ settled t'.

(** A computation that, started after calls that all returned, ends
    normally with all calls returned, and raises at the latest on the
    first call that fails. *)
Definition orderly {A} (m : M A) : Prop :=
  ∀ st, settled (trace st) →
        match m st with
        | (inr _, st') => settled (trace st')
        | (inl _, st') => aborted (trace st')
        end.

(** ** The calls of a run, in order *)

(** Making the calls of [p] in order from the log [h], until one fails:
    the log that results. *)
Fixpoint attempt (f : list event → call → bool) (h : list event) (p : list call)
    : list event :=
  match p with
  | [] => h
  | c :: p => if f h c then h ++ [(c, false)] else attempt f (h ++ [(c, true)]) p
  end.

(** The keys of [info] in the order [set_old_region] reads them. *)
Definition keys_read : list string :=
  ["rows"; "e"; "cols"; "n"; "s"; "w"; "ewres"; "nsres"].

(** The call of [set_old_region] on [info], when [info] has the eight
    keys. *)
Definition restoring_call (info : dict) : option call :=
  rows ← info !! "rows";
  e ← info !! "e";
  cols ← info !! "cols";
  n ← info !! "n";
  s ← info !! "s";
  w ← info !! "w";
  ewres ← info !! "ewres";
  nsres ← info !! "nsres";
  Some (old_region_call rows e cols n s w ewres nsres).

(** The value of [string] after [n] passes of the loop over the
    viewpoints that started with index [i] and value [s]. *)
Definition summed (i n : nat) (s : string) : string :=
  foldl (λ s j, s +:+ "+" +:+ "visual_" +:+ pretty j) s (seq i n).

Section plan.
Variables (o : Opt.t) (g : session) (reg : dict).

(** Lines 265-280. *)
Definition area_plan : list call :=
  if Py.truth (Opt.area o) then
    (if Py.truth (Opt.buff o) then [buffer_call o (GRASS_OVERWRITE g)] else [])
    ++ [area_overlay_call o (GRASS_OVERWRITE g)]
  else [].

(** Lines 326-351. *)
Definition final_plan : list call :=
  ((λ e, MapCalc e (GRASS_OVERWRITE g)) <$> option_list (adjustment o))
  ++ [optimal_call o].

(** Lines 286-302: the viewpoint map [pl] of mapset [mset] is opened, one
    viewshed is computed per point, and the map algebra adds them up. *)
Definition seen_plan (pl mset : string) : list call :=
  let vec := points_of g pl mset in
  OpenVector pl mset
  :: imap (viewshed_call o (GRASS_OVERWRITE g)) vec
  ++ [MapCalc ("final_vis = " +:+ summed 0 (length vec) "0") (GRASS_OVERWRITE g)].

(** Lines 304-322, followed by [rest]: the region is restored, the
    visibility raster is vectorised and filtered, and what is left is cut
    out of the river. The script stops before the restoring call when the
    region captured lacks a key, and before the filter when [n_points] is
    no integer literal. *)
Definition restore_plan (rest : list call) : list call :=
  match restoring_call reg with
  | Some c =>
      c :: to_vect_call (GRASS_OVERWRITE g)
      :: match Py.int (Opt.n_points o) with
         | Some n =>
             droprow_call o (GRASS_OVERWRITE g) n
             :: visible_overlay_call o (GRASS_OVERWRITE g) :: rest
         | None => []
         end
  | None => []
  end.

(** Lines 282-322, followed by [rest]. The script stops after the
    resolution switch when the viewpoint name does not unpack. *)
Definition visible_plan (rest : list call) : list call :=
  if Py.truth (Opt.points_view o) then
    ParseCommand "g.region" [("flags", Py.Str "pg")]
    :: RunCommand "g.region" [("res", Py.Str (Opt.visibility_resolution o))]
    :: match view_map (Opt.points_view o) with
       | Some (pl, mset) => seen_plan pl mset ++ restore_plan rest
       | None => []
       end
  else rest.

(** Lines 259-263, followed by [rest]: the answer of [g.region -m] is
    read at [nsres] and at [ewres], and the script stops when one of them
    is missing. *)
Definition guard_plan (rest : list call) : list call :=
  guard_call
  :: match region_m g !! "nsres", region_m g !! "ewres" with
     | Some _, Some _ => rest
     | _, _ => []
     end.

(** The calls [main] makes, in order, when each of them returns; [reg] is
    the region the script starts in. *)
Definition plan : list call :=
  guard_plan (area_plan ++ visible_plan final_plan).
End plan.

(** ** The state a log leaves *)

(** The region after an event: only a [g.region] command that returned
    changes it. *)
Definition region_step (g : session) (r : dict) (ev : event) : dict :=
  match ev with
  | (RunCommand prog kw, true) => if String.eqb prog "g.region" then g_region g kw r else r
  | _ => r
  end.

(** The name an event leaves in a registry: that of the intermediate map
    of a call that returned, and [final_vis] as soon as its map-algebra
    call is made, since line 301 comes before line 302. *)
Definition registers (ev : event) : option (maptype * string) :=
  match intermediate_of ev.1 with
  | Some (k, n) =>
      if ev.2 || (bool_decide (k = raster) && String.eqb n "final_vis")
      then Some (k, n) else None
  | None => None
  end.

Definition register_step (TMPRAST TMPVECT : ref) (h : list (list string)) (ev : event)
    : list (list string) :=
  match registers ev with
  | Some (k, n) => alter (λ xs, xs ++ [n]) (ref_of TMPRAST TMPVECT k) h
  | None => h
  end.

(** The names of type [k] that the events of [t] leave, in order. *)
Definition names_of (k : maptype) (t : list event) : list string :=
  omap (λ ev, match registers ev with
              | Some (k', n) => if bool_decide (k' = k) then Some n else None
              | None => None
              end) t.

(** The state after the events [t] have been logged from [st]. *)
Definition after (TMPRAST TMPVECT : ref) (t : list event) (st : state) : state :=
  State (gis st) (globals st) (foldl (register_step TMPRAST TMPVECT) (heap st) t)
    (exitfuncs st) (trace st ++ t) (foldl (region_step (gis st)) (region st) t)
    (stdout st) (deleted st).

(** A block that makes the calls of [P rest] up to [rest], returning
    [v]: it leaves the state its log determines, and its log is that of
    attempting [P rest], up to [rest] when the block ends normally. *)
Definition performs {A} (TMPRAST TMPVECT : ref) (P : list call → list call) (v : A)
    (st : state) (r : exn + A) (st' : state) : Prop :=
  ∃ t, st' = after TMPRAST TMPVECT t st
       ∧ match r with
         | inr a =>
             a = v
             ∧ ∀ rest, attempt (fails (gis st)) (trace st) (P rest)
                       = attempt (fails (gis st)) (trace st ++ t) rest
         | inl _ =>
             ∀ rest, attempt (fails (gis st)) (trace st) (P rest) = trace st ++ t
         end.

(** Line 353: what [main] prints. *)
Definition completion (r : exn + unit) : list string :=
  match r with
  | inr _ => ["r.green.hydro.recommended completed!"]
  | inl _ => []
  end.

(** ** Kinds of calls and of maps *)

Definition is_viewshed (c : call) : bool :=
  match c with
  | RunCommand prog _ => String.eqb prog "r.viewshed"
  | _ => false
  end.

(** A call that is no [g.region] command. *)
Definition quiet (c : call) : bool :=
  match c with
  | RunCommand prog _ => negb (String.eqb prog "g.region")
  | _ => true
  end.

(** The intermediate map of type [k] that a call writes. *)
Definition creates (k : maptype) (c : call) : option string :=
  match intermediate_of c with
  | Some (k', n) => if bool_decide (k' = k) then Some n else None
  | None => None
  end.

(** The viewshed rasters of [n] viewpoints. *)
Definition visuals (n : nat) : list string :=
  (λ i, "visual_" +:+ pretty i) <$> seq 0 n.

(** The names the script can register, by type, with [n] viewpoints. *)
Definition temporaries (k : maptype) (n : nat) : list string :=
  match k with
  | raster => visuals n ++ ["final_vis"; "tmp_discharge"]
  | vector => ["buff_area"; "tmp1_river"; "tmp_vis"; "tmp2_river"]
  end.

(** ** The options a run reads *)

(** The options as far as a run reads them: an option that belongs to a
    step counts only when the step is taken. [buff] is read under
    [if area:], the three visibility options under [if points_view:],
    [discharge_natural] under [elif], and [percentage] in its branch. *)
Definition relevant (o : Opt.t) : Opt.t :=
  let area := Py.truth (Opt.area o) in
  let view := Py.truth (Opt.points_view o) in
  let natural := negb (Py.truth (Opt.mfd o)) && Py.truth (Opt.discharge_natural o) in
  {| Opt.elevation := Opt.elevation o;
     Opt.river := Opt.river o;
     Opt.efficiency := Opt.efficiency o;
     Opt.len_plant := Opt.len_plant o;
     Opt.len_min := Opt.len_min o;
     Opt.distance := Opt.distance o;
     Opt.p_min := Opt.p_min o;
     Opt.discharge_current := Opt.discharge_current o;
     Opt.mfd := Opt.mfd o;
     Opt.discharge_natural := if natural then Opt.discharge_natural o else EmptyString;
     Opt.percentage := if natural then Opt.percentage o else EmptyString;
     Opt.area := Opt.area o;
     Opt.buff := if area then Opt.buff o else EmptyString;
     Opt.points_view := Opt.points_view o;
     Opt.visibility_resolution :=
       if view then Opt.visibility_resolution o else EmptyString;
     Opt.n_points := if view then Opt.n_points o else EmptyString;
     Opt.output_plant := Opt.output_plant o;
     Opt.output_point := Opt.output_point o;
     Opt.output_vis := if view then Opt.output_vis o else EmptyString |}.

(** Options that differ from [plain_options] only where no run without
    area and viewpoints looks. *)
Definition careless_options : Opt.t :=
  sample_options EmptyString EmptyString EmptyString "50" EmptyString "many" "seen".

(** ** Joining what [split] takes apart *)

(** [sep.join(l)] *)
Fixpoint join (sep : ascii) (l : list string) : string :=
  match l with
  | [] => EmptyString
  | [s] => s
  | s :: l => s +:+ String sep (join sep l)
  end.

(** ** A session in which a viewshed fails *)

(** The session of the samples, except that the viewshed of the second
    viewpoint fails. *)
Definition failing_viewshed_session : session :=
  {| GRASS_OVERWRITE := false;
     region_m := region_m (sample_session "10");
     raster_region := raster_region (sample_session "10");
     res_region := res_region (sample_session "10");
     points_of := points_of (sample_session "10");
     fails := λ _ c,
       match c with
       | RunCommand prog kw =>
           String.eqb prog "r.viewshed"
           && bool_decide (Py.kwarg "output" kw = Some (Py.Str "visual_1"))
       | _ => false
       end |}.

(** * Lemmas *)

(** ** The definitions on small inputs *)

Example int_of_literals :
  Py.int "12" = Some 12 ∧ Py.int " -3 " = Some (-3) ∧ Py.int "+7" = Some 7
  ∧ Py.int "2.5" = None ∧ Py.int "-" = None ∧ Py.int EmptyString = None.
Proof. by split_and!. Qed.

Example truth_of_strings : Py.truth "0" = true ∧ Py.truth EmptyString = false.
Proof. done. Qed.

Example string_against_zero :
  Py.eq (Py.Str "0") (Py.Int 0) = false ∧ Py.eq (Py.Int 0) (Py.Int 0) = true
  ∧ Py.eq (Py.Bool false) (Py.Int 0) = true.
Proof. done. Qed.

Example unpack_viewpoints :
  view_map "viewpoints@PERMANENT" = Some ("viewpoints", "PERMANENT")
  ∧ view_map "viewpoints" = Some ("viewpoints", EmptyString)
  ∧ view_map "a@b@c" = None.
Proof. done. Qed.

Example targets_of_expressions :
  mapcalc_target "final_vis = 0+visual_0+visual_1" = "final_vis"
  ∧ mapcalc_target "tmp_discharge=discharge-2" = "tmp_discharge".
Proof. done. Qed.

Example droprow_on_categories :
  v_db_droprow "cat<2" [0; 1; 2; 3] = Some [2; 3]
  ∧ v_db_droprow "cat=0" [0; 1; 2; 3] = Some [1; 2; 3]
  ∧ v_db_droprow "value IS NULL" [0; 1] = None.
Proof. done. Qed.

(** A run with two viewpoints and a count of 2: the calls, in order, and
    the two registries of [main] at the end. *)
Example run_with_viewpoints :
  let run := script sample_environ (view_options, no_flags)
               (boot (sample_session "10") sample_region) in
  run.1 = 0
  ∧ trace run.2
    = [(guard_call, true);
       (ParseCommand "g.region" [("flags", Py.Str "pg")], true);
       (RunCommand "g.region" [("res", Py.Str "250")], true);
       (OpenVector "viewpoints" "PERMANENT", true);
       (viewshed_call view_options false 0 [Qmake 637500 1; Qmake 221750 1], true);
       (viewshed_call view_options false 1 [Qmake 640000 1; Qmake 219000 1], true);
       (MapCalc "final_vis = 0+visual_0+visual_1" false, true);
       (old_region_call "1350" "645000" "1500" "228500" "215000" "630000" "10" "10", true);
       (to_vect_call false, true);
       (droprow_call view_options false 2, true);
       (visible_overlay_call view_options false, true);
       (optimal_call view_options, true)]
  ∧ heap run.2 = [[]; ["visual_0"; "visual_1"; "final_vis"]; ["tmp_vis"; "tmp2_river"]].
Proof. vm_compute. by split_and!. Qed.

(** An exclusion area buffered by 50: both temporary vectors are
    registered and deleted at exit. *)
Example run_with_buffered_area :
  let run := process sample_environ (buffered_park_options, no_flags)
               (boot (sample_session "10") sample_region) in
  trace run.2
  = [(guard_call, true);
     (buffer_call buffered_park_options false, true);
     (area_overlay_call buffered_park_options false, true);
     (optimal_call buffered_park_options, true)]
  ∧ heap run.2 = [[]; []; ["buff_area"; "tmp1_river"]]
  ∧ deleted run.2 = [(vector, "buff_area"); (vector, "tmp1_river")].
Proof. vm_compute. by split_and!. Qed.

(** ** Rules for the weakest precondition *)

Section wp.
Context {A B : Type}.
Implicit Types (st : state).

Lemma wp_ret (a : A) Q st : Q (inr a) st → wp (mret a) Q st.
Proof. done. Qed.

Lemma wp_raise e (Q : exn + A → state → Prop) st : Q (inl e) st → wp (raise e) Q st.
Proof. done. Qed.

Lemma wp_bind (m : M A) (f : A → M B) Q st :
  wp m (λ r st', match r with
                 | inr a => wp (f a) Q st'
                 | inl e => Q (inl e) st'
                 end) st →
  wp (m ≫= f) Q st.
Proof. unfold wp, mbind, M_bind. by destruct (m st) as [[e|a] st']. Qed.

Lemma wp_mono (m : M A) (Q Q' : exn + A → state → Prop) st :
  wp m Q st → (∀ r st', Q r st' → Q' r st') → wp m Q' st.
Proof. unfold wp. auto. Qed.

Lemma wp_gets (f : state → A) Q st : Q (inr (f st)) st → wp (gets f) Q st.
Proof. done. Qed.
End wp.

Lemma wp_issue c Q st :
  (fails (gis st) (trace st) c = false →
   Q (inr tt) (with_trace (trace st ++ [(c, true)]) st)) →
  (fails (gis st) (trace st) c = true →
   Q (inl (error_of c)) (with_trace (trace st ++ [(c, false)]) st)) →
  wp (issue c) Q st.
Proof. unfold wp, issue. destruct (fails _ _ _); cbn; auto. Qed.

Lemma wp_append l x Q st :
  Q (inr tt) (with_heap (alter (λ xs, xs ++ [x]) l (heap st)) st) → wp (append l x) Q st.
Proof. done. Qed.

Lemma wp_print s Q st :
  Q (inr tt) (with_stdout (stdout st ++ [s]) st) → wp (print s) Q st.
Proof. done. Qed.

Lemma wp_engine prog kw Q st :
  Q (inr tt) (if String.eqb prog "g.region"
              then with_region (g_region (gis st) kw (region st)) st else st) →
  wp (engine_effect prog kw) Q st.
Proof. unfold wp, engine_effect. by destruct (String.eqb _ _). Qed.

Lemma wp_getitem d k Q st :
  (∀ v, d !! k = Some v → Q (inr v) st) →
  (d !! k = None → Q (inl (KeyError k)) st) →
  wp (getitem d k) Q st.
Proof. unfold wp, getitem. destruct (d !! k); cbn; auto. Qed.

Lemma wp_run_command prog kw Q st :
  wp (issue (RunCommand prog kw) ≫= λ _, engine_effect prog kw) Q st →
  wp (run_command prog kw) Q st.
Proof. done. Qed.

Lemma wp_parse_command prog kw Q st :
  wp (issue (ParseCommand prog kw) ≫= λ _,
      gets (λ st, if Py.eq (default (Py.Str EmptyString) (Py.kwarg "flags" kw)) (Py.Str "m")
                  then region_m (gis st) else region st)) Q st →
  wp (parse_command prog kw) Q st.
Proof. done. Qed.

Lemma wp_mapcalc exp ovw Q st :
  wp (issue (MapCalc exp ovw)) Q st → wp (mapcalc exp ovw) Q st.
Proof. done. Qed.

Lemma wp_open pl mset Q st :
  wp (issue (OpenVector pl mset) ≫= λ _, gets (λ st, points_of (gis st) pl mset)) Q st →
  wp (VectorTopo_open pl mset) Q st.
Proof. done. Qed.

(** Projections of an updated state, and the name tests on literals. *)
Ltac norm :=
  cbn [gis globals heap exitfuncs trace region stdout deleted
       with_globals with_heap with_exitfuncs with_trace with_region with_stdout
       with_deleted Py.eq Py.kwarg default from_option id
       String.eqb Ascii.eqb Bool.eqb fst snd].

Ltac norm_in H :=
  cbn [gis globals heap exitfuncs trace region stdout deleted
       with_globals with_heap with_exitfuncs with_trace with_region with_stdout
       with_deleted Py.eq Py.kwarg default from_option id
       String.eqb Ascii.eqb Bool.eqb fst snd] in H.

(** One step of symbolic execution. *)
Ltac wp_step :=
  lazymatch goal with
  | |- wp (mbind _ _) _ _ => apply wp_bind
  | |- wp (mret _) _ _ => apply wp_ret
  | |- wp (raise _) _ _ => apply wp_raise
  | |- wp (gets _) _ _ => apply wp_gets
  | |- wp (issue _) _ _ =>
      let H := fresh "Hcall" in apply wp_issue; intros H; norm_in H
  | |- wp (mapcalc _ _) _ _ => apply wp_mapcalc
  | |- wp (append _ _) _ _ => apply wp_append
  | |- wp (print _) _ _ => apply wp_print
  | |- wp (warning _) _ _ => apply wp_print
  | |- wp (run_command _ _) _ _ => apply wp_run_command
  | |- wp (parse_command _ _) _ _ => apply wp_parse_command
  | |- wp (VectorTopo_open _ _) _ _ => apply wp_open
  | |- wp (viewshed _ _ _ _ _ _) _ _ => unfold viewshed at 1
  | |- wp (set_new_region _) _ _ => unfold set_new_region at 1
  | |- wp (set_old_region _) _ _ => unfold set_old_region at 1
  | |- wp (engine_effect _ _) _ _ => apply wp_engine
  | |- wp (getitem ?d ?k) _ _ =>
      let H := fresh "Hkey" in apply wp_getitem; [intros ? H | intros H]; norm_in H
  | |- wp (from_option _ _ ?x) _ _ =>
      let H := fresh "Hopt" in destruct x eqn:H; cbn [from_option]
  | |- wp (if ?b then ?x else ?y) ?Q ?st =>
      let b' := eval cbn in b in
      lazymatch b' with
      | true => change (wp x Q st)
      | false => change (wp y Q st)
      | _ => let H := fresh "Hif" in destruct b eqn:H
      end
  | |- wp (match ?x with _ => _ end) _ _ =>
      let H := fresh "Hmatch" in destruct x eqn:H
  end; norm.

(** ** What each block logs and returns *)

Lemma runs_trans {A B} calls causes st (a : A) st1 (r : exn + B) st2 :
  runs calls causes st (inr a) st1 → runs calls causes st1 r st2 →
  runs calls causes st r st2.
Proof.
  intros ((?&?&?&?&?) & t1 & Ht1 & ? & ?) ((?&?&?&?&?) & t2 & Ht2 & ? & ?).
  split; [repeat split; congruence|].
  exists (t1 ++ t2). rewrite Ht2, Ht1, app_assoc. repeat split; [by apply Forall_app_2|].
  destruct r; [done|by apply Forall_app_2].
Qed.

Ltac open_runs :=
  repeat match goal with
         | H : runs _ _ _ _ _ |- _ =>
             let t := fresh "t" in
             let H1 := fresh in let H2 := fresh in let H3 := fresh in
             let H4 := fresh in let H5 := fresh in let H6 := fresh in
             destruct H as ((H1&H2&H3&H4&H5) & t & H6 & ? & ?);
             norm_in H1; norm_in H2; norm_in H3; norm_in H4; norm_in H5; norm_in H6;
             rewrite ?length_alter in H5
         end.

Ltac solve_frame :=
  unfold frame; norm; rewrite ?length_alter; repeat split; try done; try congruence.

Ltac solve_Forall :=
  repeat first [ apply Forall_nil_2 | apply Forall_cons_2 | apply Forall_app_2
               | assumption | done ].

Ltac solve_runs :=
  open_runs;
  split; [solve_frame|];
  norm;
  repeat match goal with H : trace _ = _ |- _ => rewrite H; clear H end;
  rewrite <- ?app_assoc;
  eexists; split; [first [reflexivity | symmetry; apply app_nil_r]|]; split; cbn.

Ltac solve_elem :=
  repeat first [apply list_elem_of_here | apply list_elem_of_further].

Ltac solve_cause :=
  match goal with
  | H : fails ?g ?h ?c = true |- cause _ ?g' _ _ =>
      replace g' with g by congruence; exact (cause_fail _ _ _ c h H)
  | H : region_m ?g !! ?k = None |- cause _ ?g' _ _ =>
      replace g' with g by congruence;
      refine (cause_region_m _ _ _ k _ H); solve_elem
  | H : _ !! ?k = None |- cause _ _ _ _ =>
      refine (cause_region _ _ _ k _ _ H); [assumption | unfold region_keys; solve_elem]
  end.

(** A call site matches a constructor of the call predicates once the
    conditions of the branch taken are rewritten in it. *)
Ltac use_ctor K :=
  let X := fresh in
  pose proof K as X;
  unfold buffer_call, area_overlay_call, area_binput, viewshed_call, old_region_call,
    droprow_call, where_clause, visible_overlay_call, river1, river2, view_map in X;
  repeat match goal with
         | H : Py.truth _ = _ |- _ => rewrite H in X
         | H : Py.contains _ _ = _ |- _ => rewrite H in X
         | H : Py.split _ _ = _ |- _ => rewrite H in X
         | H : bool_decide _ = _ |- _ => rewrite H in X
         end;
  eapply X; eauto.

Lemma adjust_discharge_runs o OVW T reg st :
  wp (adjust_discharge OVW T (Opt.discharge_current o) (Opt.discharge_natural o)
        (Opt.mfd o) (Opt.percentage o))
     (λ r st', runs (adjustment_calls o OVW) (cause o (gis st) reg) st r st'
               ∧ region st' = region st
               ∧ (∀ d, r = inr d → d = usable_discharge o
                       ∧ trace st' = trace st ++ ((λ e, (MapCalc e OVW, true)) <$> option_list (adjustment o)))) st.
Proof.
  unfold adjust_discharge, usable_discharge, adjustment_calls, adjustment.
  repeat wp_step; (split; [solve_runs|]).
  all: try (solve_Forall; cbn; eauto).
  all: try solve_cause.
  all: split; [done|]; intros d [= <-]; split; try done.
  by rewrite app_nil_r.
Qed.

Lemma region_guard_runs o dtm reg st :
  wp (region_guard dtm)
     (λ r st', runs (eq guard_call) (cause o (gis st) reg) st r st'
               ∧ region st' = region st) st.
Proof.
  unfold region_guard.
  repeat wp_step. 
  all: (split; [solve_runs|]).
  all: try (solve_Forall; cbn; eauto).
  all: try solve_cause.
  all: try done.
Qed.

Lemma exclude_area_runs o OVW T reg st :
  wp (exclude_area OVW T (Opt.river o) (Opt.area o) (Opt.buff o))
     (λ r st', runs (area_calls o OVW) (cause o (gis st) reg) st r st'
               ∧ region st' = region st
               ∧ (∀ rv, r = inr rv → rv = river1 o)) st.
Proof.
  unfold exclude_area, river1.
  repeat wp_step.
  all: (split; [solve_runs|]).
  all: try (solve_Forall; cbn; eauto).
  all: try solve_cause.
  all: try (split; [done|]; by intros d [= <-]).
  all: first [ use_ctor (ac_buffer o OVW) | use_ctor (ac_overlay o OVW) ].
Qed.

Lemma viewshed_loop_runs o OVW T g reg pts : ∀ i s st,
  gis st = g →
  wp (for_enumerate i pts s (viewshed OVW T (Opt.elevation o)))
     (λ r st', runs (λ c, ∃ i pt, c = viewshed_call o OVW i pt) (cause o g reg) st r st'
               ∧ region st' = region st) st.
Proof.
  induction pts as [|pt pts IH]; intros i s st Hg; cbn [for_enumerate].
  - wp_step. split; [solve_runs|done]; solve_Forall.
  - repeat wp_step.
    + eapply wp_mono; [apply IH; by norm|].
      intros r st' (Hr & Hreg). split; [|done].
      eapply (runs_trans _ _ _ tt); [|exact Hr].
      solve_runs; solve_Forall; cbn; eauto.
    + split; [solve_runs|done]; solve_Forall; cbn; eauto. solve_cause.
Qed.


Ltac wp_loop o reg :=
  lazymatch goal with
  | |- wp (for_enumerate _ _ _ _) _ ?st =>
      eapply wp_mono;
      [ eapply (viewshed_loop_runs o _ _ _ reg); norm; reflexivity
      | let r := fresh "r" in let st' := fresh "st" in
        let Hr := fresh "Hruns" in let Hreg := fresh "Hreg" in
        intros r st' (Hr & Hreg); norm_in Hreg; destruct r ]
  end.


Ltac solve_trace :=
  norm;
  repeat match goal with H : trace _ = _ |- _ => rewrite H; clear H end;
  rewrite <- ?app_assoc;
  eexists; split; [first [reflexivity | symmetry; apply app_nil_r]|]; split; cbn;
  repeat first [ apply Forall_nil_2 | apply Forall_cons_2 | apply Forall_app_2];
  try reflexivity; try assumption.

Lemma exclude_visible_runs o OVW TR TV st :
  wp (exclude_visible OVW TR TV (Opt.elevation o) (river1 o) (Opt.points_view o)
        (Opt.visibility_resolution o) (Opt.output_vis o) (Opt.n_points o))
     (λ r st', runs (λ c, Py.truth (Opt.points_view o) = true ∧ visible_calls o OVW c)
                 (cause o (gis st) (region st)) st r st'
               ∧ (∀ rv, r = inr rv → rv = river2 o)) st.
Proof.
  unfold exclude_visible, river2.
  repeat wp_step.
  all: try (wp_loop o (region st); repeat wp_step).
  all: (split; [open_runs; split; [solve_frame|solve_trace]|]).
  all: try solve_cause.
  all: try (by intros d [= <-]).
  all: try (split; [reflexivity|]).
  all: try first
    [ apply vc_region_pg | apply vc_new_region | apply vc_to_vect | apply vc_final_vis
    | apply vc_old_region | apply vc_overlay
    | use_ctor (vc_droprow o OVW) | use_ctor (vc_open o OVW) ].
  all: try (apply cause_int; assumption).
  all: try (apply cause_unpack; [assumption|]; unfold view_map;
            repeat match goal with
                   | H : Py.contains _ _ = _ |- _ => rewrite H
                   | H : Py.split _ _ = _ |- _ => rewrite H
                   end; reflexivity).
  all: match goal with
       | H : Forall (λ ev, ∃ i pt, _) ?t |- Forall _ ?t =>
           eapply Forall_impl; [exact H|];
           intros [c ok] (i & pt & Hc); cbn in Hc; subst c; split;
           [reflexivity|apply vc_viewshed]
       end.
Qed.

Lemma wp_new_list Q st :
  Q (inr (length (heap st))) (with_heap (heap st ++ [[]]) st) → wp new_list Q st.
Proof. done. Qed.

Lemma wp_atexit h Q st :
  Q (inr tt) (with_exitfuncs (h :: exitfuncs st) st) → wp (atexit_register h) Q st.
Proof. done. Qed.

Lemma wp_global_options o f Q st :
  globals st = Some (o, f) → Q (inr o) st → wp global_options Q st.
Proof. unfold wp, global_options. by intros ->. Qed.

Lemma wp_global_flags o f Q st :
  globals st = Some (o, f) → Q (inr f) st → wp global_flags Q st.
Proof. unfold wp, global_flags. by intros ->. Qed.

Tactic Notation "wp_block" uconstr(L) :=
  eapply wp_mono; [eapply L|];
  let r := fresh "r" in let st' := fresh "st" in
  intros r st'; norm; intros ?; destruct r.


Lemma Forall_prefix_guard o OVW (t : list event) :
  Forall (λ ev, guard_call = ev.1) t → Forall (λ ev, prefix_calls o OVW ev.1) t.
Proof. intros H. eapply Forall_impl; [exact H|]. intros ? <-. by left. Qed.

Lemma Forall_prefix_area o OVW (t : list event) :
  Forall (λ ev, area_calls o OVW ev.1) t → Forall (λ ev, prefix_calls o OVW ev.1) t.
Proof. intros H. eapply Forall_impl; [exact H|]. intros ??. right. by left. Qed.

Lemma Forall_prefix_visible o OVW (t : list event) :
  Forall (λ ev, Py.truth (Opt.points_view o) = true ∧ visible_calls o OVW ev.1) t →
  Forall (λ ev, prefix_calls o OVW ev.1) t.
Proof. intros H. eapply Forall_impl; [exact H|]. intros ??. right. by right. Qed.



Ltac main_frame :=
  open_runs; rewrite ?length_app in *; cbn [length] in *; rewrite ?Nat.add_1_r in *;
  unfold main_post; norm; rewrite ?length_app; cbn [length]; rewrite ?Nat.add_1_r;
  split_and!; [congruence | congruence | congruence | congruence | lia | ].


Ltac trace_eq :=
  norm; repeat match goal with H : trace _ = _ |- _ => rewrite H end;
  rewrite <- ?app_assoc; reflexivity.

Ltac prefix_Forall :=
  repeat first
    [ apply Forall_app_2
    | by apply Forall_prefix_guard
    | by apply Forall_prefix_area
    | by apply Forall_prefix_visible ].

Lemma main_runs a b o f st :
  globals st = Some (o, f) → wp (main a b) (main_post o st) st.
Proof.
  intros Hgl. unfold main.
  apply wp_bind, wp_new_list; norm.
  apply wp_bind, wp_new_list; norm.
  apply wp_bind, wp_atexit; norm.
  apply wp_bind, wp_gets; norm.
  apply wp_bind. eapply wp_global_options; [by norm|]. norm.
  apply wp_bind. eapply wp_global_flags; [by norm|]. norm.
  set (OVW := GRASS_OVERWRITE (gis st)).
  apply wp_bind.
  wp_block (region_guard_runs o _ (region st)).
  { destruct H as (Hr & Hreg). main_frame.
    exists t, [], []. rewrite !app_nil_r.
    split_and!; [trace_eq | prefix_Forall | done | by left | done]. }
  destruct H as (Hr1 & Hreg1).
  apply wp_bind.
  wp_block (exclude_area_runs o OVW _ (region st)).
  { destruct H as (Hr & Hreg & _). main_frame.
    exists (t0 ++ t), [], []. rewrite !app_nil_r.
    split_and!; [trace_eq | prefix_Forall | done | by left | congruence]. }
  destruct H as (Hr2 & Hreg2 & Hrv). rewrite (Hrv _ eq_refl). clear Hrv.
  apply wp_bind.
  wp_block (exclude_visible_runs o OVW).
  { destruct H as (Hr & _). main_frame.
    exists (t1 ++ t0 ++ t), [], []. rewrite !app_nil_r.
    split_and!; [trace_eq | prefix_Forall | done | by left | congruence]. }
  destruct H as (Hr3 & Hrv). rewrite (Hrv _ eq_refl). clear Hrv.
  apply wp_bind.
  wp_block (adjust_discharge_runs o OVW _ (region st)).
  { destruct H as (Hr & _). main_frame.
    exists (t2 ++ t1 ++ t0), t, []. rewrite !app_nil_r.
    split_and!; [trace_eq | prefix_Forall | done | by left | congruence]. }
  destruct H as (Hr4 & Hreg4 & Hd). destruct (Hd _ eq_refl) as [-> Htr]. clear Hd.
  open_runs.
  match type of Htr with trace ?s = _ =>
    match goal with H : trace s = trace _ ++ ?t |- _ =>
      assert (t = (λ e, (MapCalc e OVW, true)) <$> option_list (adjustment o)) as Ht
        by (eapply app_inv_head; rewrite <- H; exact Htr)
    end
  end.
  clear Htr.
  repeat wp_step.
  - main_frame.
    exists (t2 ++ t1 ++ t0), t, [(optimal_call o, true)].
    split_and!; [trace_eq | prefix_Forall | done | right | done].
    exists true. split_and!; [done | by repeat apply Forall_app_2 | done].
  - main_frame.
    exists (t2 ++ t1 ++ t0), t, [(optimal_call o, false)].
    split_and!; [trace_eq | prefix_Forall | done | right | ].
    + exists false. split_and!; [done | by repeat apply Forall_app_2 | done].
    + match goal with H : fails _ ?h ?c = true |- _ =>
        replace (gis st3) with (gis st) in H by congruence;
        exact (cause_fail _ _ _ c h H) end.
Qed.

(** ** The script as a whole *)

Lemma script_no_session g reg env argv :
  env !! "GISBASE" = None →
  script env argv (boot g reg)
  = (1, State g None [[]] [] [] reg ["You must be in GRASS GIS to run this program."] []).
Proof. intros H. unfold script. by rewrite H. Qed.

Lemma script_in_session g reg env argv v :
  env !! "GISBASE" = Some v →
  ∃ r st', main argv.1 argv.2 (entered g reg argv) = (r, st')
           ∧ script env argv (boot g reg) = (exit_status r, st')
           ∧ main_post argv.1 (entered g reg argv) r st'.
Proof.
  intros H. pose proof (main_runs argv.1 argv.2 argv.1 argv.2 (entered g reg argv)) as Hm.
  unfold wp in Hm. destruct (main argv.1 argv.2 (entered g reg argv)) as [r st'] eqn:E.
  exists r, st'. split; [done|]. split.
  - unfold script. rewrite H. cbn [new_list boot heap with_heap length app snd with_globals
      gis globals exitfuncs trace region stdout deleted].
    change (with_globals (Some argv) (with_heap [[]] (boot g reg)))
      with (entered g reg argv).
    by rewrite E.
  - apply Hm. by destruct argv.
Qed.

Lemma emitted_of_prefix o OVW c : prefix_calls o OVW c → emitted o OVW c.
Proof.
  intros [->|[H|[H1 H2]]]; [apply em_guard | by apply em_area | by apply em_visible].
Qed.

Lemma main_post_emitted o st r st' :
  main_post o st r st' →
  ∃ t, trace st' = trace st ++ t ∧ Forall (λ ev, emitted o (GRASS_OVERWRITE (gis st)) ev.1) t.
Proof.
  intros (_ & _ & _ & _ & _ & t0 & t1 & t2 & Ht & H0 & H1 & H2 & _).
  exists (t0 ++ t1 ++ t2). split; [done|].
  repeat apply Forall_app_2.
  - eapply Forall_impl; [exact H0|]. intros ?. apply emitted_of_prefix.
  - eapply Forall_impl; [exact H1|]. intros ?. apply em_adjust.
  - destruct H2 as [->|(ok & -> & _)]; [constructor|].
    apply Forall_cons_2; [apply em_optimal|constructor].
Qed.

(** Every call of a run of the script is one of the calls listed. *)
Lemma script_emitted g reg env argv :
  Forall (λ ev, emitted argv.1 (GRASS_OVERWRITE g) ev.1)
    (trace (script env argv (boot g reg)).2).
Proof.
  destruct (env !! "GISBASE") as [v|] eqn:E.
  - destruct (script_in_session g reg env argv v E) as (r & st' & _ & -> & Hp).
    apply main_post_emitted in Hp as (t & Ht & Hall).
    cbn in Ht. cbn [snd]. rewrite Ht. exact Hall.
  - rewrite (script_no_session _ _ _ _ E). constructor.
Qed.

Lemma emitted_optimal o OVW kw :
  emitted o OVW (RunCommand "r.green.hydro.optimal" kw) →
  RunCommand "r.green.hydro.optimal" kw = optimal_call o.
Proof.
  intros H. inversion H as [|c Hc|c Hv Hc|c Hc|]; subst.
  - inversion Hc.
  - inversion Hc.
  - destruct Hc as (exp & _ & [=]).
  - done.
Qed.


(** ** The registry covers the maps created *)

Lemma heap_le_refl h : heap_le h h.
Proof. by intros ??. Qed.

Lemma heap_le_trans h1 h2 h3 : heap_le h1 h2 → heap_le h2 h3 → heap_le h1 h3.
Proof. intros H1 H2 l n ?. by apply H2, H1. Qed.

Lemma heap_le_alter h l (x : string) : heap_le h (alter (λ xs, xs ++ [x]) l h).
Proof.
  intros l' n. unfold names_at. destruct (decide (l = l')) as [->|Hne].
  - rewrite list_lookup_alter_eq. destruct (h !! l'); cbn; [|done].
    intros ?. apply elem_of_app. by left.
  - by rewrite list_lookup_alter_ne.
Qed.

Lemma names_at_alter h l (x : string) :
  (l < length h)%nat → x ∈ names_at (alter (λ xs, xs ++ [x]) l h) l.
Proof.
  intros Hl. unfold names_at. rewrite list_lookup_alter_eq.
  destruct (lookup_lt_is_Some_2 h l Hl) as [xs ->]. cbn.
  apply elem_of_app. right. by apply list_elem_of_singleton.
Qed.

Lemma registered_mono TR TV h h' ev :
  heap_le h h' → registered TR TV h ev → registered TR TV h' ev.
Proof. intros Hle Hr Hok k n Hi. by apply Hle, Hr. Qed.

Lemma keeps_refl TR TV st : keeps TR TV st st.
Proof.
  split; [apply heap_le_refl|]. split; [done|]. exists []. by rewrite app_nil_r.
Qed.

Lemma keeps_trans TR TV st1 st2 st3 :
  keeps TR TV st1 st2 → keeps TR TV st2 st3 → keeps TR TV st1 st3.
Proof.
  intros (Hle1 & Hl1 & t1 & Ht1 & Hr1) (Hle2 & Hl2 & t2 & Ht2 & Hr2).
  split; [by eapply heap_le_trans|]. split; [congruence|].
  exists (t1 ++ t2). rewrite Ht2, Ht1, app_assoc. split; [done|].
  apply Forall_app_2; [|done].
  eapply Forall_impl; [exact Hr1|]. intros ev. by apply registered_mono.
Qed.

Lemma mapcalc_target_final_vis terms :
  mapcalc_target ("final_vis = " +:+ terms) = "final_vis".
Proof. reflexivity. Qed.

Lemma mapcalc_target_tmp_discharge rest :
  mapcalc_target ("tmp_discharge=" +:+ rest) = "tmp_discharge".
Proof. reflexivity. Qed.

Ltac solve_heap_le :=
  repeat (eapply heap_le_trans; [|apply heap_le_alter]);
  first [apply heap_le_refl | assumption].

Ltac solve_names :=
  repeat first
    [ apply names_at_alter; rewrite ?length_alter; first [assumption | lia | congruence]
    | apply heap_le_alter ].

Ltac solve_registered :=
  lazymatch goal with
  | |- registered _ _ _ (_, false) => intros [=]
  | |- registered _ _ _ (_, true) =>
      let Hi := fresh in
      intros _ ? ? Hi;
      cbn [intermediate_of String.eqb Ascii.eqb Bool.eqb orb output_of Py.kwarg
           fmap option_fmap option_map] in Hi;
      rewrite ?mapcalc_target_final_vis, ?mapcalc_target_tmp_discharge in Hi;
      first [ discriminate Hi
            | injection Hi as <- <-; cbn [ref_of]; solve_names ]
  end.

Ltac solve_keeps :=
  unfold keeps; norm; rewrite ?length_alter;
  repeat match goal with
         | H : keeps _ _ _ _ |- _ =>
             let t := fresh "t" in
             let H1 := fresh in let H2 := fresh in let H3 := fresh in let H4 := fresh in
             destruct H as (H1 & H2 & t & H3 & H4);
             norm_in H1; norm_in H2; norm_in H3; rewrite ?length_alter in H2
         end;
  split_and!; [solve_heap_le | congruence |];
  repeat match goal with H : trace _ = _ |- _ => rewrite H; clear H end;
  rewrite <- ?app_assoc;
  eexists; split; [first [reflexivity | symmetry; apply app_nil_r]|];
  repeat first [ apply Forall_nil_2 | apply Forall_cons_2 | apply Forall_app_2 ];
  try solve_registered.

Lemma region_guard_keeps TR TV dtm st :
  wp (region_guard dtm) (λ _ st', keeps TR TV st st') st.
Proof. unfold region_guard. repeat wp_step; solve_keeps. Qed.

Lemma exclude_area_keeps OVW TR TV river area buff st :
  (TV < length (heap st))%nat →
  wp (exclude_area OVW TV river area buff) (λ _ st', keeps TR TV st st') st.
Proof. intros HTV. unfold exclude_area. repeat wp_step; solve_keeps. Qed.

Lemma adjust_discharge_keeps OVW TR TV cur nat mfd pct st :
  (TR < length (heap st))%nat →
  wp (adjust_discharge OVW TR cur nat mfd pct) (λ _ st', keeps TR TV st st') st.
Proof.
  intros HTR. unfold adjust_discharge. repeat wp_step; solve_keeps.
Qed.

Lemma viewshed_loop_keeps OVW TR TV dtm pts : ∀ i s st,
  (TR < length (heap st))%nat →
  wp (for_enumerate i pts s (viewshed OVW TR dtm)) (λ _ st', keeps TR TV st st') st.
Proof.
  induction pts as [|pt pts IH]; intros i s st HTR; cbn [for_enumerate].
  - wp_step. apply keeps_refl.
  - repeat wp_step.
    + eapply wp_mono; [apply IH; norm; by rewrite length_alter|].
      intros r st' Hk. eapply keeps_trans; [|exact Hk]. solve_keeps.
    + solve_keeps.
Qed.

Lemma exclude_visible_keeps OVW TR TV dtm river pv res vis n st :
  (TR < length (heap st))%nat → (TV < length (heap st))%nat →
  wp (exclude_visible OVW TR TV dtm river pv res vis n) (λ _ st', keeps TR TV st st') st.
Proof.
  intros HTR HTV. unfold exclude_visible.
  repeat wp_step.
  all: try (eapply wp_mono; [eapply (viewshed_loop_keeps OVW TR TV); by norm|];
            intros ? ? ?; norm; destruct r; repeat wp_step).
  all: solve_keeps.
  all: try assumption.
  all: match goal with
       | H : Forall (registered _ _ _) ?t |- Forall (registered _ _ _) ?t =>
           eapply Forall_impl; [exact H|];
           intros ?; apply registered_mono; solve_heap_le
       end.
Qed.

Lemma main_keeps a b o f st :
  globals st = Some (o, f) →
  wp (main a b)
     (λ _ st', ∃ t, trace st' = trace st ++ t
                    ∧ Forall (registered (length (heap st)) (S (length (heap st)))
                                (heap st')) t) st.
Proof.
  intros Hgl. unfold main.
  apply wp_bind, wp_new_list; norm.
  apply wp_bind, wp_new_list; norm.
  apply wp_bind, wp_atexit; norm.
  apply wp_bind, wp_gets; norm.
  apply wp_bind. eapply wp_global_options; [by norm|]. norm.
  apply wp_bind. eapply wp_global_flags; [by norm|]. norm.
  rewrite length_app, Nat.add_1_r. cbn [length].
  set (TR := length (heap st)). set (TV := S TR).
  set (st0 := with_exitfuncs _ _).
  assert (HTR : (TR < length (heap st0))%nat).
  { subst st0 TR. norm. rewrite !length_app. cbn. lia. }
  assert (HTV : (TV < length (heap st0))%nat).
  { subst st0 TV TR. norm. rewrite !length_app. cbn. lia. }
  assert (Htr : trace st0 = trace st) by done.
  clearbody st0.
  cut (wp (region_guard (Opt.elevation o) ≫= λ _,
           river ← exclude_area (GRASS_OVERWRITE (gis st)) TV (Opt.river o) (Opt.area o) (Opt.buff o);
           river ← exclude_visible (GRASS_OVERWRITE (gis st)) TR TV (Opt.elevation o) river
                     (Opt.points_view o) (Opt.visibility_resolution o) (Opt.output_vis o)
                     (Opt.n_points o);
           discharge_current ← adjust_discharge (GRASS_OVERWRITE (gis st)) TR
                     (Opt.discharge_current o) (Opt.discharge_natural o) (Opt.mfd o)
                     (Opt.percentage o);
           run_command "r.green.hydro.optimal"
             [("flags", Py.Str "c"); ("discharge", Py.Str discharge_current);
              ("river", Py.Str river); ("elevation", Py.Str (Opt.elevation o));
              ("len_plant", Py.Str (Opt.len_plant o));
              ("output_plant", Py.Str (Opt.output_plant o));
              ("output_point", Py.Str (Opt.output_point o));
              ("distance", Py.Str (Opt.distance o)); ("len_min", Py.Str (Opt.len_min o));
              ("efficiency", Py.Str (Opt.efficiency o)); ("p_min", Py.Str (Opt.p_min o))];;
           print "r.green.hydro.recommended completed!")
          (λ _ st', keeps TR TV st0 st') st0).
  { intros Hw. eapply wp_mono; [exact Hw|].
    intros r st' (_ & _ & t & Ht & Hall). exists t. split; [congruence|done]. }
  apply wp_bind.
  eapply wp_mono; [apply (region_guard_keeps TR TV)|]. intros [e|[]] st1 H1; [done|].
  assert (Hl1 : length (heap st1) = length (heap st0)) by apply H1.
  apply wp_bind.
  eapply wp_mono; [apply (exclude_area_keeps _ TR TV); congruence|].
  intros [e|river] st2 H2; [by eapply keeps_trans|].
  assert (Hl2 : length (heap st2) = length (heap st1)) by apply H2.
  apply wp_bind.
  eapply wp_mono; [apply (exclude_visible_keeps _ TR TV); congruence|].
  intros [e|river'] st3 H3.
  { eapply keeps_trans; [exact H1|]. by eapply keeps_trans. }
  assert (Hl3 : length (heap st3) = length (heap st2)) by apply H3.
  apply wp_bind.
  eapply wp_mono; [apply (adjust_discharge_keeps _ TR TV); congruence|].
  assert (H03 : keeps TR TV st0 st3).
  { eapply keeps_trans; [exact H1|]. by eapply keeps_trans. }
  intros [e|d] st4 H4; [by eapply keeps_trans|].
  assert (Hl4 : length (heap st4) = length (heap st3)) by apply H4.
  eapply wp_mono with (Q := λ _ st', keeps TR TV st4 st').
  - clear H1 H2 H3 H4 H03. repeat wp_step; solve_keeps.
  - intros _ st5 H5. eapply keeps_trans; [exact H03|]. by eapply keeps_trans.
Qed.

(** ** The region is restored *)

Ltac not_vectorised Hpre :=
  let ok := fresh "ok" in let Hin := fresh "Hin" in
  intros ok Hin; norm_in Hin;
  repeat match goal with H : trace _ = _ |- _ => rewrite H in Hin; clear H end;
  repeat (apply elem_of_app in Hin as [Hin|Hin]);
  try (by eapply Hpre);
  try (repeat (apply elem_of_cons in Hin as [Hin|Hin]);
       first [ discriminate Hin | by apply elem_of_nil in Hin ]);
  try (match goal with
       | H : Forall _ ?t, Hin' : _ ∈ ?t |- _ =>
           rewrite Forall_forall in H; destruct (H _ Hin') as (? & ? & Heq);
           discriminate Heq
       end).

Ltac region_restored :=
  let k := fresh "k" in let Hk := fresh "Hk" in
  norm;
  cbn [g_region g_region_arg foldl existsb String.eqb Ascii.eqb Bool.eqb orb region_keys];
  intros k Hk; unfold region_keys in Hk;
  repeat (apply elem_of_cons in Hk as [->|Hk]);
  try (by apply elem_of_nil in Hk);
  repeat first [ rewrite lookup_insert_eq | rewrite lookup_insert_ne by discriminate ];
  congruence.

Ltac find_elem :=
  first [ apply list_elem_of_here
        | apply list_elem_of_further; find_elem
        | apply elem_of_app; right; find_elem ].

Ltac restoring_called :=
  eexists; split;
  [ do 8 eexists; split_and!; [reflexivity | eassumption..]
  | norm; repeat match goal with H : trace _ = _ |- _ => rewrite H; clear H end;
    rewrite <- ?app_assoc; find_elem ].

Lemma exclude_visible_region o OVW TR TV st :
  unvectorised OVW st →
  wp (exclude_visible OVW TR TV (Opt.elevation o) (river1 o) (Opt.points_view o)
        (Opt.visibility_resolution o) (Opt.output_vis o) (Opt.n_points o))
     (λ _ st', restored OVW (region st) st') st.
Proof.
  intros Hpre. unfold exclude_visible.
  repeat wp_step.
  all: try (wp_loop o (region st); repeat wp_step).
  all: open_runs.
  all: first [ left; solve [not_vectorised Hpre]
             | right; split; [solve [region_restored] | solve [restoring_called]] ].
Qed.

Lemma unvectorised_step OVW {A} calls causes st (r : exn + A) st' :
  (∀ c, calls c → c ≠ to_vect_call OVW) →
  unvectorised OVW st → runs calls causes st r st' → unvectorised OVW st'.
Proof.
  intros Hc Hun (_ & t & Ht & Hall & _) ok Hin.
  rewrite Ht in Hin. apply elem_of_app in Hin as [Hin|Hin].
  - by eapply Hun.
  - rewrite Forall_forall in Hall. by eapply (Hc _ (Hall _ Hin)).
Qed.

Lemma restored_step OVW reg {A} calls causes st (r : exn + A) st' :
  (∀ c, calls c → c ≠ to_vect_call OVW) →
  restored OVW reg st → runs calls causes st r st' → region st' = region st →
  restored OVW reg st'.
Proof.
  intros Hc [Hun|[Hsame (c & Hc1 & Hc2)]] Hr Hreg.
  - left. by eapply unvectorised_step.
  - right. split; [unfold same_region; by rewrite Hreg|].
    exists c. split; [done|]. destruct Hr as (_ & t & -> & _).
    apply elem_of_app. by left.
Qed.

Lemma guard_not_to_vect OVW c : guard_call = c → c ≠ to_vect_call OVW.
Proof. by intros <-. Qed.

Lemma area_not_to_vect o OVW c : area_calls o OVW c → c ≠ to_vect_call OVW.
Proof. by intros []. Qed.

Lemma adjustment_not_to_vect o OVW c : adjustment_calls o OVW c → c ≠ to_vect_call OVW.
Proof. by intros (exp & _ & ->). Qed.

Lemma main_region a b o f st :
  globals st = Some (o, f) → unvectorised (GRASS_OVERWRITE (gis st)) st →
  wp (main a b) (λ _ st', restored (GRASS_OVERWRITE (gis st)) (region st) st') st.
Proof.
  intros Hgl Hun. unfold main.
  apply wp_bind, wp_new_list; norm.
  apply wp_bind, wp_new_list; norm.
  apply wp_bind, wp_atexit; norm.
  apply wp_bind, wp_gets; norm.
  apply wp_bind. eapply wp_global_options; [by norm|]. norm.
  apply wp_bind. eapply wp_global_flags; [by norm|]. norm.
  set (OVW := GRASS_OVERWRITE (gis st)).
  set (st0 := with_exitfuncs _ _).
  assert (H0 : unvectorised OVW st0 ∧ region st0 = region st) by done.
  clearbody st0. destruct H0 as [Hun0 Hreg0]. clear Hun.
  apply wp_bind.
  eapply wp_mono; [apply (region_guard_runs o _ (region st))|].
  intros r1 st1 (Hr1 & Hreg1).
  pose proof (unvectorised_step OVW _ _ _ _ _ (guard_not_to_vect OVW) Hun0 Hr1) as Hun1.
  destruct r1 as [e|[]]; [by left|].
  apply wp_bind.
  eapply wp_mono; [apply (exclude_area_runs o OVW _ (region st))|].
  intros r2 st2 (Hr2 & Hreg2 & Hrv).
  pose proof (unvectorised_step OVW _ _ _ _ _ (area_not_to_vect o OVW) Hun1 Hr2) as Hun2.
  destruct r2 as [e|river]; [by left|]. rewrite (Hrv _ eq_refl).
  apply wp_bind.
  eapply wp_mono; [apply (exclude_visible_region o OVW); exact Hun2|].
  intros r3 st3 Hres3.
  replace (region st2) with (region st) in Hres3 by congruence.
  destruct r3 as [e|river']; [done|].
  apply wp_bind.
  eapply wp_mono; [apply (adjust_discharge_runs o OVW _ (region st))|].
  intros r4 st4 (Hr4 & Hreg4 & _).
  pose proof (restored_step OVW _ _ _ _ _ _ (adjustment_not_to_vect o OVW) Hres3 Hr4 Hreg4)
    as Hres4.
  destruct r4 as [e|d]; [done|].
  repeat wp_step.
  all: destruct Hres4 as [Hun4|[Hsame (c & Hc1 & Hc2)]]; [left|right].
  all: try (intros ok Hin; norm_in Hin; apply elem_of_app in Hin as [Hin|Hin];
            [by eapply Hun4|];
            apply list_elem_of_singleton in Hin; discriminate Hin).
  all: split; [done|]; exists c; split; [done|]; norm; apply elem_of_app; by left.
Qed.

(** ** Facts about whole runs *)

Lemma fold_cleanup st hs :
  trace (foldl call_handler st hs) = trace st
  ∧ heap (foldl call_handler st hs) = heap st.
Proof.
  revert st. induction hs as [|[rast vect debug] hs IH]; intros st; [done|].
  cbn [foldl]. destruct (IH (call_handler st (Cleanup rast vect debug))) as (-> & ->).
  unfold call_handler, cleanup. by destruct debug.
Qed.

Lemma trace_run_exitfuncs st : trace (run_exitfuncs st) = trace st.
Proof. apply fold_cleanup. Qed.

Lemma heap_run_exitfuncs st : heap (run_exitfuncs st) = heap st.
Proof. apply fold_cleanup. Qed.

Lemma cause_status o g reg e : cause o g reg e → exit_status (inl e) = 1.
Proof. intros [[] ?| | | |]; done. Qed.

Lemma prefix_not_optimal o OVW kw :
  ¬ prefix_calls o OVW (RunCommand "r.green.hydro.optimal" kw).
Proof.
  intros [H|[H|[_ H]]]; [done|inversion H|inversion H].
Qed.

Lemma adjustment_not_optimal o OVW kw :
  ¬ adjustment_calls o OVW (RunCommand "r.green.hydro.optimal" kw).
Proof. by intros (exp & _ & ?). Qed.

Lemma prefix_not_assigns o OVW c :
  prefix_calls o OVW c → assigns "tmp_discharge" c = false.
Proof.
  intros [->|[H|[_ H]]]; [done|by destruct H|by destruct H].
Qed.

Lemma filter_none {A} (f : A → bool) (P : A → Prop) (l : list A) :
  (∀ x, P x → f x = false) → Forall P l → List.filter f l = [].
Proof.
  intros Hf. induction 1 as [|x l Hx _ IH]; [done|]. cbn. by rewrite (Hf _ Hx).
Qed.

(** The log of a run in which the delegated routine was called. *)
Lemma delegated_trace g reg env argv kw ok :
  (RunCommand "r.green.hydro.optimal" kw, ok)
    ∈ trace (script env argv (boot g reg)).2 →
  ∃ t0, trace (script env argv (boot g reg)).2
        = t0 ++ ((λ e, (MapCalc e (GRASS_OVERWRITE g), true))
                   <$> option_list (adjustment argv.1))
             ++ [(optimal_call argv.1, ok)]
        ∧ Forall (λ ev, prefix_calls argv.1 (GRASS_OVERWRITE g) ev.1) t0
        ∧ Forall (λ ev, ev.2 = true) t0
        ∧ RunCommand "r.green.hydro.optimal" kw = optimal_call argv.1.
Proof.
  destruct (env !! "GISBASE") as [v|] eqn:E.
  2:{ rewrite (script_no_session _ _ _ _ E). cbn. by intros ?%elem_of_nil. }
  destruct (script_in_session g reg env argv v E) as (r & st' & _ & -> & Hp).
  cbn [snd].
  destruct Hp as (_ & _ & _ & _ & _ & t0 & t1 & t2 & Ht & H0 & H1 & H2 & _).
  cbn in Ht, H0, H1, H2. rewrite Ht. intros Hin.
  apply elem_of_app in Hin as [Hin|Hin].
  { rewrite Forall_forall in H0. by destruct (prefix_not_optimal _ _ _ (H0 _ Hin)). }
  apply elem_of_app in Hin as [Hin|Hin].
  { rewrite Forall_forall in H1. by destruct (adjustment_not_optimal _ _ _ (H1 _ Hin)). }
  destruct H2 as [->|(ok' & -> & Hok & ->)]; [by apply elem_of_nil in Hin|].
  apply list_elem_of_singleton in Hin. injection Hin as Hc <-.
  exists t0. by rewrite Hc.
Qed.

Lemma main_post_returned o st st' :
  main_post o st (inr tt) st' →
  ∃ t, trace st' = trace st ++ t ++ [(optimal_call o, true)]
       ∧ Forall (λ ev, ev.2 = true) t.
Proof.
  intros (_ & _ & _ & _ & _ & t0 & t1 & t2 & Ht & _ & _ & H2 & ->).
  destruct H2 as [[=]|(ok & _ & Hok & ->)].
  exists (t0 ++ ((λ e, (MapCalc e (GRASS_OVERWRITE (gis st)), true))
                   <$> option_list (adjustment o))).
  rewrite Ht, <- !app_assoc. split; [done|].
  apply Forall_app_2; [done|]. by destruct (adjustment o); repeat constructor.
Qed.

Lemma never_fails_returns o g reg e :
  (∀ h c, fails g h c = false) → readable g reg o → ¬ cause o g reg e.
Proof.
  intros Hnf (Hm & Hv) [c h Hf|k Hk Hnone|k Hpv Hk Hnone|msg Hpv Hnone|msg Hpv Hnone].
  - by rewrite Hnf in Hf.
  - destruct (Hm _ Hk) as [? ?]. congruence.
  - destruct (Hv Hpv) as (Hr & _ & _). destruct (Hr _ Hk) as [? ?]. congruence.
  - destruct (Hv Hpv) as (_ & [? ?] & _). congruence.
  - destruct (Hv Hpv) as (_ & _ & [? ?]). congruence.
Qed.

Lemma where_clause_selects o n cat :
  Py.int (Opt.n_points o) = Some n →
  where_selects (where_clause o n) cat
  = Some (if bool_decide (0 < n) then bool_decide (cat < n) else bool_decide (cat = 0)).
Proof.
  intros Hn. unfold where_clause. case_bool_decide; [|reflexivity].
  change (where_selects ("cat<" +:+ Opt.n_points o) cat)
    with ((λ n, bool_decide (cat < n)) <$> Py.int (Opt.n_points o)).
  by rewrite Hn.
Qed.

Lemma droprow_keeps_unselected o n cats :
  Py.int (Opt.n_points o) = Some n →
  v_db_droprow (where_clause o n) cats
  = Some (List.filter (λ cat, if bool_decide (0 < n) then bool_decide (n ≤ cat)
                              else bool_decide (cat ≠ 0)) cats).
Proof.
  intros Hn. unfold v_db_droprow. rewrite (where_clause_selects _ _ _ Hn). f_equal.
  induction cats as [|cat cats IH]; [done|]. cbn. rewrite IH.
  rewrite (where_clause_selects _ _ _ Hn). cbn.
  destruct (bool_decide (0 < n)); repeat case_bool_decide; cbn; try done; lia.
Qed.

Lemma emitted_droprow o OVW kw :
  emitted o OVW (RunCommand "v.db.droprow" kw) →
  Py.truth (Opt.points_view o) = true
  ∧ ∃ n, Py.int (Opt.n_points o) = Some n
         ∧ RunCommand "v.db.droprow" kw = droprow_call o OVW n.
Proof.
  intros H. inversion H as [|c Hc|c Hv Hc|c Hc|]; subst.
  - inversion Hc.
  - split; [done|]. inversion Hc; subst. by eexists.
  - by destruct Hc as (exp & _ & ?).
Qed.

Lemma emitted_overlay o OVW kw :
  emitted o OVW (RunCommand "v.overlay" kw) →
  RunCommand "v.overlay" kw = area_overlay_call o OVW
  ∨ RunCommand "v.overlay" kw = visible_overlay_call o OVW.
Proof.
  intros H. inversion H as [|c Hc|c Hv Hc|c Hc|]; subst.
  - inversion Hc. by left.
  - inversion Hc. by right.
  - by destruct Hc as (exp & _ & ?).
Qed.

(** ** A failing call ends the run *)

Lemma orderly_bind {A B} (m : M A) (f : A → M B) :
  orderly m → (∀ a, orderly (f a)) → orderly (m ≫= f).
Proof.
  intros Hm Hf st Hst. specialize (Hm st Hst). unfold mbind, M_bind.
  destruct (m st) as [[e|a] st1]; [done|]. by apply Hf.
Qed.

Lemma orderly_quiet {A} (m : M A) :
  (∀ st, trace (m st).2 = trace st) → orderly m.
Proof.
  intros Hq st Hst. specialize (Hq st). destruct (m st) as [[e|a] st']; cbn in Hq;
    rewrite Hq; [by left|done].
Qed.

Lemma orderly_issue c : orderly (issue c).
Proof.
  intros st Hst. unfold issue. destruct (fails _ _ _); cbn.
  - right. by exists (trace st), c.
  - apply Forall_app_2; [done|]. by repeat constructor.
Qed.

Lemma orderly_getitem d k : orderly (getitem d k).
Proof. unfold getitem. by destruct (d !! k); apply orderly_quiet. Qed.

Lemma orderly_engine prog kw : orderly (engine_effect prog kw).
Proof. apply orderly_quiet. intros st. unfold engine_effect. by destruct (String.eqb _ _). Qed.

Lemma orderly_options : orderly global_options.
Proof. apply orderly_quiet. intros st. unfold global_options. by destruct (globals st) as [[]|]. Qed.

Lemma orderly_flags : orderly global_flags.
Proof. apply orderly_quiet. intros st. unfold global_flags. by destruct (globals st) as [[]|]. Qed.

Ltac orderly_step :=
  lazymatch goal with
  | |- orderly (mbind _ _) => apply orderly_bind; [|intros ?]
  | |- orderly (issue _) => apply orderly_issue
  | |- orderly (getitem _ _) => apply orderly_getitem
  | |- orderly (engine_effect _ _) => apply orderly_engine
  | |- orderly global_options => apply orderly_options
  | |- orderly global_flags => apply orderly_flags
  | |- orderly (run_command _ _) => unfold run_command at 1
  | |- orderly (parse_command _ _) => unfold parse_command at 1
  | |- orderly (mapcalc _ _) => unfold mapcalc at 1
  | |- orderly (VectorTopo_open _ _) => unfold VectorTopo_open at 1
  | |- orderly (set_new_region _) => unfold set_new_region at 1
  | |- orderly (set_old_region _) => unfold set_old_region at 1
  | |- orderly (viewshed _ _ _ _ _ _) => unfold viewshed at 1
  | |- orderly (if ?b then _ else _) => destruct b
  | |- orderly (from_option _ _ ?x) => destruct x; cbn [from_option]
  | |- orderly (match ?x with _ => _ end) => destruct x
  | |- orderly (let '(_, _) := ?x in _) => destruct x
  | |- orderly _ => by apply orderly_quiet
  end.

Lemma orderly_loop OVW T dtm pts : ∀ i s,
  orderly (for_enumerate i pts s (viewshed OVW T dtm)).
Proof.
  induction pts as [|pt pts IH]; intros i s; cbn [for_enumerate].
  - by apply orderly_quiet.
  - apply orderly_bind; [|intros ?; apply IH]. repeat orderly_step.
Qed.

Lemma orderly_main a b : orderly (main a b).
Proof.
  unfold main, region_guard, exclude_area, exclude_visible, adjust_discharge.
  repeat first [apply orderly_loop | orderly_step].
Qed.

Lemma aborted_last t t1 c t2 :
  aborted t → t = t1 ++ (c, false) :: t2 → t2 = [] ∧ settled t1.
Proof.
  intros [Hs|(t' & c0 & -> & Hs)] Heq.
  - subst t. apply Forall_app in Hs as [_ Hs]. by inversion Hs.
  - destruct t2 as [|x t2] using rev_ind.
    + apply app_inj_tail in Heq as [-> _]. done.
    + clear IHt2. rewrite app_comm_cons, app_assoc in Heq.
      apply app_inj_tail in Heq as [-> _].
      apply Forall_app in Hs as [_ Hs]. by inversion Hs.
Qed.

Lemma script_aborted g reg env argv : aborted (trace (script env argv (boot g reg)).2).
Proof.
  destruct (env !! "GISBASE") as [v|] eqn:E.
  2:{ rewrite (script_no_session _ _ _ _ E). left. constructor. }
  destruct (script_in_session g reg env argv v E) as (r & st' & Hm & -> & _).
  pose proof (orderly_main argv.1 argv.2 (entered g reg argv)) as H.
  rewrite Hm in H. cbn [snd]. destruct r; [apply H; constructor|left; apply H; constructor].
Qed.

(** ** Evaluating sample runs *)

Ltac in_trace := vm_compute; solve_elem.

Lemma readable_sample o :
  Opt.points_view o = "viewpoints@PERMANENT" → Opt.n_points o = "2" →
  readable (sample_session "10") sample_region o.
Proof.
  intros Hv Hn. split.
  - intros k Hk. repeat (apply elem_of_cons in Hk as [->|Hk]);
      [by eexists..|by apply elem_of_nil in Hk].
  - intros _. rewrite Hv, Hn. split_and!; [|by eexists..].
    intros k Hk. unfold region_keys in Hk.
    repeat (apply elem_of_cons in Hk as [->|Hk]);
      [by eexists..|by apply elem_of_nil in Hk].
Qed.

(** * The claims *)

(** Claim C1. In every run that reaches the delegated optimal-placement
    routine, exactly one discharge rule has applied, the minimum flow
    discharge first: with an [mfd] value the routine receives the new
    raster [tmp_discharge], assigned once by the map-algebra expression
    current discharge minus [mfd]; otherwise, with a natural discharge, it
    receives [tmp_discharge] assigned once as current discharge minus
    natural discharge times percentage over 100; otherwise it receives the
    current-discharge input itself and nothing is assigned. *)
Theorem discharge_adjustment_selected g reg env argv kw ok :
  (RunCommand "r.green.hydro.optimal" kw, ok)
    ∈ trace (script env argv (boot g reg)).2 →
  let o := argv.1 in
  let OVW := GRASS_OVERWRITE g in
  let calcs := List.filter (λ ev, assigns "tmp_discharge" ev.1)
                 (trace (script env argv (boot g reg)).2) in
  (Py.truth (Opt.mfd o) = true →
     Py.kwarg "discharge" kw = Some (Py.Str "tmp_discharge")
     ∧ calcs = [(MapCalc ("tmp_discharge=" +:+ Opt.discharge_current o
                          +:+ "-" +:+ Opt.mfd o) OVW, true)])
  ∧ (Py.truth (Opt.mfd o) = false → Py.truth (Opt.discharge_natural o) = true →
     Py.kwarg "discharge" kw = Some (Py.Str "tmp_discharge")
     ∧ calcs = [(MapCalc ("tmp_discharge=" +:+ Opt.discharge_current o +:+ "-"
                          +:+ Opt.discharge_natural o +:+ "*" +:+ Opt.percentage o
                          +:+ "/100.0") OVW, true)])
  ∧ (Py.truth (Opt.mfd o) = false → Py.truth (Opt.discharge_natural o) = false →
     Py.kwarg "discharge" kw = Some (Py.Str (Opt.discharge_current o))
     ∧ calcs = []).
Proof.
  intros Hin o OVW calcs.
  destruct (delegated_trace _ _ _ _ _ _ Hin) as (t0 & Ht & H0 & _ & Hkw).
  injection Hkw as ->. subst calcs. rewrite Ht, !List.filter_app.
  rewrite (filter_none (λ ev : event, assigns "tmp_discharge" ev.1)
             (λ ev : event, prefix_calls argv.1 OVW ev.1) t0
             (λ ev, prefix_not_assigns argv.1 OVW ev.1) H0).
  fold o. unfold adjustment, usable_discharge, adjustment. fold o.
  split_and!.
  - intros ->. done.
  - intros -> ->. done.
  - intros -> ->. done.
Qed.

Lemma discharge_adjustment_selected_witness :
  let run := script sample_environ (mfd_options, no_flags)
               (boot (sample_session "10") sample_region) in
  (optimal_call mfd_options, true) ∈ trace run.2
  ∧ Py.kwarg "discharge"
      [("flags", Py.Str "c"); ("discharge", Py.Str "tmp_discharge");
       ("river", Py.Str "streams"); ("elevation", Py.Str "dem");
       ("len_plant", Py.Str "100"); ("output_plant", Py.Str "plants");
       ("output_point", Py.Str "points"); ("distance", Py.Str "0.5");
       ("len_min", Py.Str "10"); ("efficiency", Py.Str "1");
       ("p_min", Py.Str "10.0")] = Some (Py.Str "tmp_discharge")
  ∧ List.filter (λ ev, assigns "tmp_discharge" ev.1) (trace run.2)
    = [(MapCalc "tmp_discharge=discharge-2" false, true)].
Proof.
  intros run.
  assert (Hin : (optimal_call mfd_options, true) ∈ trace run.2) by in_trace.
  split; [exact Hin|].
  exact (proj1 (discharge_adjustment_selected _ _ _ _ _ _ Hin) eq_refl).
Defined.

(** Claim C2, as amended. Whenever a run calls the polygon filter, the
    viewpoints were supplied, the filter is [v.db.droprow] on [tmp_vis]
    with the selection [cat<n_points] when [int(n_points) > 0] and [cat=0]
    otherwise, and it removes the selected polygons: the polygons left in
    the output, those of category at least [n_points], respectively
    different from zero, are the second input of the difference overlay
    that produces [tmp2_river] from the river. *)
Theorem visible_filter_drops_selected g reg env argv kw ok :
  (RunCommand "v.db.droprow" kw, ok) ∈ trace (script env argv (boot g reg)).2 →
  let o := argv.1 in
  Py.truth (Opt.points_view o) = true
  ∧ ∃ n, Py.int (Opt.n_points o) = Some n
      ∧ Py.kwarg "input" kw = Some (Py.Str "tmp_vis")
      ∧ Py.kwarg "where" kw
        = Some (Py.Str (if bool_decide (0 < n) then "cat<" +:+ Opt.n_points o
                        else "cat=0"))
      ∧ Py.kwarg "output" kw = Some (Py.Str (Opt.output_vis o))
      ∧ (∀ cats,
           v_db_droprow (if bool_decide (0 < n) then "cat<" +:+ Opt.n_points o
                         else "cat=0") cats
           = Some (List.filter (λ cat, if bool_decide (0 < n) then bool_decide (n ≤ cat)
                                       else bool_decide (cat ≠ 0)) cats))
      ∧ (∀ kw' ok', (RunCommand "v.overlay" kw', ok')
                      ∈ trace (script env argv (boot g reg)).2 →
           Py.kwarg "output" kw' = Some (Py.Str "tmp2_river") →
           Py.kwarg "ainput" kw' = Some (Py.Str (river1 o))
           ∧ Py.kwarg "binput" kw' = Some (Py.Str (Opt.output_vis o))
           ∧ Py.kwarg "operator" kw' = Some (Py.Str "not")).
Proof.
  intros Hin o.
  pose proof (script_emitted g reg env argv) as Hall. rewrite Forall_forall in Hall.
  destruct (emitted_droprow _ _ _ (Hall _ Hin)) as (Hv & n & Hn & Hkw).
  split; [done|]. exists n. injection Hkw as ->.
  split_and!; try done.
  - intros cats. apply (droprow_keeps_unselected o n cats Hn).
  - intros kw' ok' Hin' Hout.
    destruct (emitted_overlay _ _ _ (Hall _ Hin')) as [Hc|Hc]; injection Hc as ->;
      [discriminate Hout|done].
Qed.

Lemma visible_filter_drops_selected_witness :
  let run := script sample_environ (view_options, no_flags)
               (boot (sample_session "10") sample_region) in
  (droprow_call view_options false 2, true) ∈ trace run.2
  ∧ Py.int (Opt.n_points view_options) = Some 2
  ∧ v_db_droprow "cat<2" [0; 1; 2; 3] = Some [2; 3].
Proof.
  intros run.
  assert (Hin : (droprow_call view_options false 2, true) ∈ trace run.2) by in_trace.
  split; [exact Hin|]. split; [reflexivity|].
  destruct (visible_filter_drops_selected _ _ _ _ _ _ Hin) as (_ & n & Hn & _ & _ & _ & H & _).
  injection Hn as <-. exact (H [0; 1; 2; 3]).
Defined.

(** Claim C2 as stated fails: with [n_points = 2] and polygons of
    categories 0 to 3 the filter leaves categories 2 and 3, not the
    categories below 2. *)
Lemma visible_filter_keeps_below_refuted :
  let run := script sample_environ (view_options, no_flags)
               (boot (sample_session "10") sample_region) in
  ¬ (∀ kw ok w n,
       (RunCommand "v.db.droprow" kw, ok) ∈ trace run.2 →
       Py.kwarg "where" kw = Some (Py.Str w) →
       Py.int (Opt.n_points view_options) = Some n →
       ∀ cats, v_db_droprow w cats = Some (kept_as_specified n cats)).
Proof.
  intros run H.
  assert (Hin : (droprow_call view_options false 2, true) ∈ trace run.2) by in_trace.
  specialize (H _ true "cat<2" 2 Hin eq_refl eq_refl [0; 1; 2; 3]).
  vm_compute in H. discriminate H.
Qed.

(** Claim C3. In every run without exclusion area and without viewpoints,
    the river name passed to the delegated routine is the input river
    name, no overlay is called, and a run that exits with status 0 has
    made the delegated call. *)
Theorem river_unchanged_without_exclusions g reg env argv :
  Py.truth (Opt.area argv.1) = false →
  Py.truth (Opt.points_view argv.1) = false →
  let run := script env argv (boot g reg) in
  (∀ kw ok, (RunCommand "r.green.hydro.optimal" kw, ok) ∈ trace run.2 →
            Py.kwarg "river" kw = Some (Py.Str (Opt.river argv.1)))
  ∧ (∀ kw ok, (RunCommand "v.overlay" kw, ok) ∉ trace run.2)
  ∧ (run.1 = 0 → (optimal_call argv.1, true) ∈ trace run.2).
Proof.
  intros Harea Hview run. split_and!.
  - intros kw ok Hin.
    destruct (delegated_trace _ _ _ _ _ _ Hin) as (_ & _ & _ & _ & Hkw).
    injection Hkw as ->. cbn. unfold river2, river1. by rewrite Hview, Harea.
  - intros kw ok Hin.
    pose proof (script_emitted g reg env argv) as Hall.
    rewrite Forall_forall in Hall. specialize (Hall _ Hin). cbn in Hall.
    inversion Hall as [|c Hc|c Hv Hc|c Hc|]; subst.
    + inversion Hc; congruence.
    + congruence.
    + by destruct Hc as (exp & _ & ?).
  - subst run. destruct (env !! "GISBASE") as [v|] eqn:E.
    2:{ by rewrite (script_no_session _ _ _ _ E). }
    destruct (script_in_session g reg env argv v E) as (r & st' & _ & -> & Hp).
    cbn [fst snd].
    destruct Hp as (_ & _ & _ & _ & _ & t0 & t1 & t2 & Ht & _ & _ & _ & Hr).
    destruct r as [e|[]].
    + intros Hs. by rewrite (cause_status _ _ _ _ Hr) in Hs.
    + intros _. rewrite Ht, Hr. cbn. rewrite !elem_of_app. right. right.
      apply list_elem_of_here.
Qed.

Lemma river_unchanged_without_exclusions_witness :
  let run := script sample_environ (plain_options, no_flags)
               (boot (sample_session "10") sample_region) in
  (∀ kw ok, (RunCommand "r.green.hydro.optimal" kw, ok) ∈ trace run.2 →
            Py.kwarg "river" kw = Some (Py.Str "streams"))
  ∧ (∀ kw ok, (RunCommand "v.overlay" kw, ok) ∉ trace run.2)
  ∧ (run.1 = 0 → (optimal_call plain_options, true) ∈ trace run.2).
Proof.
  exact (river_unchanged_without_exclusions (sample_session "10") sample_region
           sample_environ (plain_options, no_flags) eq_refl eq_refl).
Defined.

(** Claim C4 fails on the code: with an exclusion area and the buffer
    distance at its declared answer [0], the option value is the
    non-empty string ["0"], the test [if buff:] succeeds, [v.buffer] is
    called with distance 0 and the overlay reads [buff_area]. *)
Theorem zero_buffer_still_buffers :
  Opt.buff park_options = "0"
  ∧ trace (script sample_environ (park_options, no_flags)
             (boot (sample_session "10") sample_region)).2
    = [(guard_call, true);
       (RunCommand "v.buffer"
          [("input", Py.Str "park"); ("output", Py.Str "buff_area");
           ("distance", Py.Str "0"); ("overwrite", Py.Bool false)], true);
       (RunCommand "v.overlay"
          [("flags", Py.Str "t"); ("ainput", Py.Str "streams");
           ("binput", Py.Str "buff_area"); ("operator", Py.Str "not");
           ("output", Py.Str "tmp1_river"); ("overwrite", Py.Bool false)], true);
       (optimal_call park_options, true)].
Proof. split; [reflexivity|]. vm_compute. reflexivity. Qed.

(** The buffer command is called exactly on a non-empty [buff]. *)
Lemma buffer_follows_truth g reg env argv kw ok :
  (RunCommand "v.buffer" kw, ok) ∈ trace (script env argv (boot g reg)).2 →
  Py.truth (Opt.buff argv.1) = true
  ∧ Py.kwarg "distance" kw = Some (Py.Str (Opt.buff argv.1)).
Proof.
  intros Hin. pose proof (script_emitted g reg env argv) as Hall.
  rewrite Forall_forall in Hall. specialize (Hall _ Hin). cbn in Hall.
  inversion Hall as [|c Hc|c Hv Hc|c Hc|]; subst.
  - by inversion Hc.
  - inversion Hc.
  - by destruct Hc as (exp & _ & ?).
Qed.

(** Claim C5. In every run in which the visibility computation has
    completed, that is, in which the vectorisation that follows the
    restoring call is reached, the restoring call was given the rows,
    columns, four bounds and two resolutions of the region captured before
    the temporary resolution switch and has returned, and these eight
    fields of the active region at the end are those captured. *)
Theorem region_restored_after_visibility g reg env argv ok :
  (to_vect_call (GRASS_OVERWRITE g), ok) ∈ trace (script env argv (boot g reg)).2 →
  same_region reg (region (script env argv (boot g reg)).2)
  ∧ ∃ c, restoring reg c ∧ (c, true) ∈ trace (script env argv (boot g reg)).2.
Proof.
  destruct (env !! "GISBASE") as [v|] eqn:E.
  2:{ rewrite (script_no_session _ _ _ _ E). cbn. by intros ?%elem_of_nil. }
  destruct (script_in_session g reg env argv v E) as (r & st' & Hm & -> & _).
  cbn [snd]. intros Hin.
  pose proof (main_region argv.1 argv.2 argv.1 argv.2 (entered g reg argv)) as Hw.
  unfold wp in Hw. rewrite Hm in Hw. cbn [fst snd] in Hw.
  destruct Hw as [Hun|Hsame]; [by destruct argv| | |done].
  - intros ok' Hin'. by apply elem_of_nil in Hin'.
  - by destruct (Hun _ Hin).
Qed.

Lemma region_restored_after_visibility_witness :
  let run := script sample_environ (view_options, no_flags)
               (boot (sample_session "10") sample_region) in
  (to_vect_call false, true) ∈ trace run.2
  ∧ (RunCommand "g.region" [("res", Py.Str "250")], true) ∈ trace run.2
  ∧ same_region sample_region (region run.2).
Proof.
  intros run.
  assert (Hin : (to_vect_call false, true) ∈ trace run.2) by in_trace.
  split; [exact Hin|]. split; [in_trace|].
  exact (proj1 (region_restored_after_visibility (sample_session "10") sample_region
                  sample_environ (view_options, no_flags) true Hin)).
Defined.

(** Claim C6 fails on the code: the cleanup is registered with
    [debug=False] before [DEBUG] is read from the flags, so a run with
    the debug flag set still deletes its temporary maps at exit. *)
Theorem debug_flag_still_deletes :
  let run := process sample_environ (buffered_park_options, debug_flags)
               (boot (sample_session "10") sample_region) in
  Flag.d debug_flags = true
  ∧ run.1 = 0
  ∧ exitfuncs run.2 = [Cleanup 1 2 false]
  ∧ deleted run.2 = [(vector, "buff_area"); (vector, "tmp1_river")].
Proof. vm_compute. by split_and!. Qed.

(** Whatever the flags, the handler registered carries [debug=False]. *)
Lemma cleanup_registered_before_flag g reg env argv :
  is_Some (env !! "GISBASE") →
  exitfuncs (script env argv (boot g reg)).2 = [Cleanup 1 2 false].
Proof.
  intros [v E].
  destruct (script_in_session g reg env argv v E) as (r & st' & _ & -> & Hp).
  by destruct Hp as (_ & _ & _ & Hex & _).
Qed.

(** Claim C7 fails on the code: the region answer holds strings, the
    script compares them with the integer [0], and a region reported with
    resolution ["0"] is not reset to the elevation raster. *)
Theorem zero_resolution_not_reset :
  let run := script sample_environ (plain_options, no_flags)
               (boot (sample_session "0") sample_region) in
  region_m (sample_session "0") !! "nsres" = Some "0"
  ∧ region_m (sample_session "0") !! "ewres" = Some "0"
  ∧ trace run.2 = [(guard_call, true); (optimal_call plain_options, true)]
  ∧ region run.2 = sample_region.
Proof. split_and!; [by vm_compute..|reflexivity]. Qed.

(** No run ever calls [g.region raster=..]. *)
Lemma region_never_reset g reg env argv kw ok :
  (RunCommand "g.region" kw, ok) ∈ trace (script env argv (boot g reg)).2 →
  Py.kwarg "raster" kw = None.
Proof.
  intros Hin. pose proof (script_emitted g reg env argv) as Hall.
  rewrite Forall_forall in Hall. specialize (Hall _ Hin). cbn in Hall.
  inversion Hall as [|c Hc|c Hv Hc|c Hc|]; subst.
  - inversion Hc.
  - by inversion Hc.
  - by destruct Hc as (exp & _ & ?).
Qed.

(** Claim C8, as amended. Without the debug flag, on every exit path:
    every intermediate map whose creating call returned is in its
    registry when the process exits, and the exit-time cleanup deletes
    every name the two registries hold. *)
Theorem completed_intermediates_deleted g reg env argv :
  Flag.d argv.2 = false →
  let run := process env argv (boot g reg) in
  (∀ c k n, (c, true) ∈ trace run.2 → intermediate_of c = Some (k, n) →
            n ∈ names_at (heap run.2) (ref_of 1 2 k))
  ∧ (∀ k n, n ∈ names_at (heap run.2) (ref_of 1 2 k) → (k, n) ∈ deleted run.2).
Proof.
  intros _ run. subst run. unfold process.
  destruct (env !! "GISBASE") as [v|] eqn:E.
  2:{ rewrite (script_no_session _ _ _ _ E). cbn. split.
      - by intros c k n ?%elem_of_nil.
      - by intros [] n ?%elem_of_nil. }
  destruct (script_in_session g reg env argv v E) as (r & st' & Hm & -> & Hp).
  cbn [snd]. rewrite trace_run_exitfuncs, heap_run_exitfuncs.
  destruct Hp as (_ & _ & Hdel & Hex & _).
  pose proof (main_keeps argv.1 argv.2 argv.1 argv.2 (entered g reg argv)) as Hw.
  unfold wp in Hw. rewrite Hm in Hw. cbn [fst snd] in Hw.
  destruct Hw as (t & Ht & Hall); [by destruct argv|].
  cbn in Ht, Hall, Hdel, Hex. rewrite Ht. split.
  - intros c k n Hin Hi. rewrite Forall_forall in Hall.
    exact (Hall _ Hin eq_refl _ _ Hi).
  - intros k n Hn. unfold run_exitfuncs. rewrite Hex. cbn. rewrite Hdel. cbn.
    apply elem_of_app. unfold names_at in Hn.
    destruct k; [left|right]; by apply list_elem_of_fmap_2.
Qed.

Lemma completed_intermediates_deleted_witness :
  let run := process sample_environ (buffered_park_options, no_flags)
               (boot (sample_session "10") sample_region) in
  (buffer_call buffered_park_options false, true) ∈ trace run.2
  ∧ (vector, "buff_area") ∈ deleted run.2.
Proof.
  intros run.
  assert (Hin : (buffer_call buffered_park_options false, true) ∈ trace run.2) by in_trace.
  split; [exact Hin|].
  destruct (completed_intermediates_deleted (sample_session "10") sample_region
              sample_environ (buffered_park_options, no_flags) eq_refl) as [Hreg Hdel].
  exact (Hdel vector _ (Hreg _ vector _ Hin eq_refl)).
Defined.

(** Claim C8 as stated fails: names are registered after the creating
    call returns, so when [v.buffer] fails, [buff_area] is in no registry
    and the cleanup does not delete it. *)
Lemma failed_creation_not_registered :
  let run := process sample_environ (buffered_park_options, no_flags)
               (boot failing_buffer_session sample_region) in
  ¬ (∀ c ok k n, (c, ok) ∈ trace run.2 → intermediate_of c = Some (k, n) →
                 (k, n) ∈ deleted run.2).
Proof.
  intros run H.
  assert (Hin : (buffer_call buffered_park_options false, false) ∈ trace run.2) by in_trace.
  specialize (H _ _ vector "buff_area" Hin eq_refl).
  vm_compute in H. by apply elem_of_nil in H.
Qed.

(** Claim C9. Without [GISBASE] in the environment the script exits with
    status 1 before any call and before any handler is registered; a run
    in which a call fails exits with status 1, and the failed call is the
    last one made; in a session where every call returns and the inputs
    are readable the script exits with status 0 after the delegated
    call. *)
Theorem exit_status_of_run g reg env argv :
  let run := script env argv (boot g reg) in
  (env !! "GISBASE" = None →
     run.1 = 1 ∧ trace run.2 = [] ∧ exitfuncs run.2 = [] ∧ deleted run.2 = [])
  ∧ (∀ c, (c, false) ∈ trace run.2 → run.1 = 1)
  ∧ (is_Some (env !! "GISBASE") → (∀ h c, fails g h c = false) →
     readable g reg argv.1 →
     run.1 = 0 ∧ Forall (λ ev, ev.2 = true) (trace run.2)
     ∧ (optimal_call argv.1, true) ∈ trace run.2)
  ∧ (∀ t c t', trace run.2 = t ++ (c, false) :: t' →
               t' = [] ∧ Forall (λ ev, ev.2 = true) t).
Proof.
  intros run. subst run. split_and!.
  - intros E. by rewrite (script_no_session _ _ _ _ E).
  - intros c. destruct (env !! "GISBASE") as [v|] eqn:E.
    2:{ rewrite (script_no_session _ _ _ _ E). cbn. by intros ?%elem_of_nil. }
    destruct (script_in_session g reg env argv v E) as (r & st' & _ & -> & Hp).
    cbn [fst snd]. destruct r as [e|[]].
    + intros _. destruct Hp as (_ & _ & _ & _ & _ & _ & _ & _ & _ & _ & _ & _ & Hc).
      by apply cause_status in Hc.
    + destruct (main_post_returned _ _ _ Hp) as (t & -> & Hok). cbn.
      intros [Hin|Hin]%elem_of_app.
      * rewrite Forall_forall in Hok. by specialize (Hok _ Hin).
      * by apply list_elem_of_singleton in Hin.
  - intros [v E] Hnf Hread.
    destruct (script_in_session g reg env argv v E) as (r & st' & _ & -> & Hp).
    cbn [fst snd]. destruct r as [e|[]].
    + destruct Hp as (_ & _ & _ & _ & _ & _ & _ & _ & _ & _ & _ & _ & Hc).
      by destruct (never_fails_returns _ _ _ _ Hnf Hread Hc).
    + destruct (main_post_returned _ _ _ Hp) as (t & -> & Hok). cbn.
      split_and!; [done| |].
      * apply Forall_app_2; [done|]. by repeat constructor.
      * apply elem_of_app. right. apply list_elem_of_here.
  - intros t c t' Heq.
    exact (aborted_last _ _ _ _ (script_aborted g reg env argv) Heq).
Qed.

Lemma exit_status_of_run_witness :
  (script ∅ (plain_options, no_flags) (boot (sample_session "10") sample_region)).1 = 1
  ∧ (script sample_environ (buffered_park_options, no_flags)
       (boot failing_buffer_session sample_region)).1 = 1
  ∧ (script sample_environ (view_options, no_flags)
       (boot (sample_session "10") sample_region)).1 = 0.
Proof.
  split_and!.
  - exact (proj1 (proj1 (exit_status_of_run (sample_session "10") sample_region ∅
                           (plain_options, no_flags)) eq_refl)).
  - refine (proj1 (proj2 (exit_status_of_run failing_buffer_session sample_region
                            sample_environ (buffered_park_options, no_flags)))
              (buffer_call buffered_park_options false) _).
    in_trace.
  - refine (proj1 (proj1 (proj2 (proj2 (exit_status_of_run (sample_session "10")
                                           sample_region sample_environ
                                           (view_options, no_flags))))
                     _ _ _)).
    + by eexists.
    + done.
    + by apply readable_sample.
Defined.

(** Claim C10. [main] behaves the same whatever arguments it is given:
    it reads the module-level [options] and [flags] only. *)
Theorem main_ignores_its_arguments (opts opts' : Opt.t) (flgs flgs' : Flag.t) (st : state) :
  main opts flgs st = main opts' flgs' st.
Proof. reflexivity. Qed.

(** * More lemmas: the script against its plan *)

(** ** The state a block leaves, told from its log *)

Lemma state_after TR TV t st st' :
  trace st' = trace st ++ t →
  heap st' = foldl (register_step TR TV) (heap st) t →
  region st' = foldl (region_step (gis st)) (region st) t →
  stdout st' = stdout st → gis st' = gis st → globals st' = globals st →
  exitfuncs st' = exitfuncs st → deleted st' = deleted st →
  st' = after TR TV t st.
Proof. destruct st'. cbn. intros. unfold after. by f_equal. Qed.

Lemma after_after TR TV t1 t2 st :
  after TR TV t2 (after TR TV t1 st) = after TR TV (t1 ++ t2) st.
Proof. unfold after. cbn. by rewrite !foldl_app, app_assoc. Qed.

Lemma performs_trans {A B} TR TV P Q (v : A) (w : B) st a st1 r st2 :
  performs TR TV P v st (inr a) st1 → performs TR TV Q w st1 r st2 →
  performs TR TV (P ∘ Q) w st r st2.
Proof.
  intros (t1 & -> & _ & H1) (t2 & -> & H2). exists (t1 ++ t2).
  split; [apply after_after|]. cbn in H2. cbn.
  destruct r as [e|b].
  - intros rest. by rewrite H1, H2, app_assoc.
  - destruct H2 as [-> H2]. split; [done|]. intros rest. by rewrite H1, H2, app_assoc.
Qed.

Ltac solve_attempt :=
  unfold area_plan, visible_plan, seen_plan, restore_plan, guard_plan, final_plan,
    adjustment,
    buffer_call, area_overlay_call, area_binput, guard_call, restoring_call,
    view_map, to_vect_call, droprow_call, where_clause, visible_overlay_call,
    old_region_call, optimal_call;
  repeat match goal with
         | H : Py.truth _ = _ |- _ => rewrite H
         | H : _ !! _ = _ |- _ => rewrite H
         | H : Py.contains _ _ = _ |- _ => rewrite H
         | H : Py.split _ _ = _ |- _ => rewrite H
         | H : Py.int _ = _ |- _ => rewrite H
         end;
  cbn [app fmap list_fmap option_list option_rect mbind option_bind];
  rewrite <- ?app_assoc; cbn [app]; cbn [attempt];
  repeat (match goal with
          | H : fails _ _ _ = _ |- _ => rewrite H
          | H : ∀ rest, attempt _ _ _ = _ |- _ => rewrite H
          end;
          cbn [attempt app]);
  rewrite <- ?app_assoc, ?app_nil_r; reflexivity.

Ltac solve_value :=
  unfold river1, river2, usable_discharge, adjustment;
  repeat match goal with H : Py.truth _ = _ |- _ => rewrite H end;
  reflexivity.

Ltac solve_after :=
  eapply state_after; norm;
  [ rewrite <- ?app_assoc; first [reflexivity | symmetry; apply app_nil_r]
  | rewrite ?foldl_app; try reflexivity .. ].

Ltac solve_performs :=
  eexists; split;
  [ solve_after
  | first [ split; [solve_value|]; intros rest; solve_attempt
          | intros rest; solve_attempt ] ].

Lemma performs_ext {A} TR TV P P' (v v' : A) st r st' :
  (∀ rest, P rest = P' rest) → v = v' →
  performs TR TV P v st r st' → performs TR TV P' v' st r st'.
Proof.
  intros HP <- (t & Ht & H). exists t. split; [done|].
  destruct r; [|destruct H as [? H]; split; [done|]]; intros rest; by rewrite <- HP.
Qed.

Lemma performs_gis {A} TR TV P (v : A) st r st' :
  performs TR TV P v st r st' → gis st' = gis st.
Proof. by intros (t & -> & _). Qed.

Lemma performs_value {A} TR TV P (v : A) st a st' :
  performs TR TV P v st (inr a) st' → a = v.
Proof. by intros (t & _ & ? & _). Qed.

(** The log of a block started on an empty log. *)
Lemma performs_log {A} TR TV P (v : A) st r st' rest :
  performs TR TV P v st r st' → trace st = [] →
  (∀ a, r = inr a → rest = []) →
  st' = after TR TV (attempt (fails (gis st)) [] (P rest)) st.
Proof.
  intros (t & -> & H) Hst Hr. rewrite Hst in H. cbn in H. destruct r as [e|a].
  - by rewrite H.
  - destruct H as [_ H]. rewrite (Hr a eq_refl). by rewrite H.
Qed.

Lemma region_guard_performs o g TR TV st :
  gis st = g →
  wp (region_guard (Opt.elevation o))
     (λ r st', performs TR TV (guard_plan g) tt st r st' ∧ region st' = region st) st.
Proof.
  intros <-. unfold region_guard. repeat wp_step.
  all: (split; [solve_performs|reflexivity]).
Qed.

Lemma exclude_area_performs o g TR TV st :
  gis st = g →
  wp (exclude_area (GRASS_OVERWRITE g) TV (Opt.river o) (Opt.area o) (Opt.buff o))
     (λ r st', performs TR TV (app (area_plan o g)) (river1 o) st r st'
               ∧ region st' = region st) st.
Proof.
  intros <-. unfold exclude_area. repeat wp_step.
  all: (split; [solve_performs|reflexivity]).
Qed.

Lemma adjust_discharge_performs o g TR TV st :
  gis st = g →
  wp (adjust_discharge (GRASS_OVERWRITE g) TR (Opt.discharge_current o)
        (Opt.discharge_natural o) (Opt.mfd o) (Opt.percentage o))
     (performs TR TV
        (app ((λ e, MapCalc e (GRASS_OVERWRITE g)) <$> option_list (adjustment o)))
        (usable_discharge o) st) st.
Proof.
  intros <-. unfold adjust_discharge. repeat wp_step.
  all: solve_performs.
Qed.

Lemma delegate_performs o TR TV st :
  wp (run_command "r.green.hydro.optimal"
        [("flags", Py.Str "c"); ("discharge", Py.Str (usable_discharge o));
         ("river", Py.Str (river2 o)); ("elevation", Py.Str (Opt.elevation o));
         ("len_plant", Py.Str (Opt.len_plant o));
         ("output_plant", Py.Str (Opt.output_plant o));
         ("output_point", Py.Str (Opt.output_point o));
         ("distance", Py.Str (Opt.distance o)); ("len_min", Py.Str (Opt.len_min o));
         ("efficiency", Py.Str (Opt.efficiency o)); ("p_min", Py.Str (Opt.p_min o))])
     (performs TR TV (cons (optimal_call o)) tt st) st.
Proof.
  repeat wp_step.
  all: solve_performs.
Qed.

Lemma viewshed_loop_performs o TR TV pts : ∀ i s st,
  wp (for_enumerate i pts s (viewshed (GRASS_OVERWRITE (gis st)) TR (Opt.elevation o)))
     (performs TR TV
        (app (imap (λ j, viewshed_call o (GRASS_OVERWRITE (gis st)) (i + j)) pts))
        (summed i (length pts) s) st) st.
Proof.
  induction pts as [|pt pts IH]; intros i s st; cbn [for_enumerate].
  - wp_step. eexists. split; [solve_after|]. split; [done|].
    intros rest. cbn. by rewrite app_nil_r.
  - apply wp_bind. unfold viewshed at 1. repeat wp_step.
    + eapply wp_mono;
        [match goal with |- wp _ _ ?s => exact (IH _ _ s) end|].
      intros r st' H. norm_in H.
      eapply performs_ext; cycle 2.
      * eapply (performs_trans TR TV
                  (cons (viewshed_call o (GRASS_OVERWRITE (gis st)) i pt)) _ tt);
          [|exact H].
        unfold viewshed_call. solve_performs.
      * intros rest. cbn [imap compose app]. rewrite Nat.add_0_r. do 2 f_equal.
        apply imap_ext. intros j x _. cbn. by rewrite Nat.add_succ_r.
      * reflexivity.
    + unfold viewshed_call. eexists. split; [solve_after|].
      intros rest. cbn [imap compose app attempt]. rewrite Nat.add_0_r.
      solve_attempt.
Qed.

Lemma viewshed_loop_from_zero o TR TV pts st :
  wp (for_enumerate 0 pts "0" (viewshed (GRASS_OVERWRITE (gis st)) TR (Opt.elevation o)))
     (performs TR TV (app (imap (viewshed_call o (GRASS_OVERWRITE (gis st))) pts))
        (summed 0 (length pts) "0") st) st.
Proof.
  eapply wp_mono; [apply viewshed_loop_performs|]. intros r st'.
  apply performs_ext; [|done]. intros rest. f_equal.
Qed.

Ltac wp_viewsheds o TR TV :=
  lazymatch goal with
  | |- wp (for_enumerate _ _ _ _) _ ?s =>
      eapply wp_mono; [exact (viewshed_loop_from_zero o TR TV _ s)|];
      let r := fresh "r" in let st' := fresh "st" in
      let t := fresh "t" in let H := fresh "Hloop" in
      intros r st' (t & -> & H); norm_in H;
      destruct r; [|destruct H as [-> H]]; unfold after; norm
  end.

Lemma exclude_visible_performs o g reg TR TV st :
  gis st = g → region st = reg →
  wp (exclude_visible (GRASS_OVERWRITE g) TR TV (Opt.elevation o) (river1 o)
        (Opt.points_view o) (Opt.visibility_resolution o) (Opt.output_vis o)
        (Opt.n_points o))
     (performs TR TV (visible_plan o g reg) (river2 o) st) st.
Proof.
  intros <- <-. unfold exclude_visible. repeat wp_step.
  all: try (wp_viewsheds o TR TV; repeat wp_step).
  all: solve_performs.
Qed.

Ltac wp_performs L :=
  lazymatch goal with
  | |- wp _ _ ?s =>
      eapply wp_mono; [eapply L; first [done|congruence]|];
      let r := fresh "r" in let st' := fresh "st" in let H := fresh "Hp" in
      intros r st' H; destruct r
  end.

Ltac stopped Hacc rest :=
  eapply (performs_log _ _ _ _ _ _ _ rest) in Hacc; [|done..];
  rewrite Hacc; reflexivity.

Lemma main_performs a b o f g reg :
  wp (main a b)
     (λ r st',
        let t := attempt (fails g) [] (plan o g reg) in
        st' = State g (Some (o, f)) (foldl (register_step 1 2) [[]; []; []] t)
                [Cleanup 1 2 false] t (foldl (region_step g) reg t) (completion r) [])
     (entered g reg (o, f)).
Proof.
  unfold main, entered.
  apply wp_bind, wp_new_list; norm.
  apply wp_bind, wp_new_list; norm.
  apply wp_bind, wp_atexit; norm.
  apply wp_bind, wp_gets; norm.
  apply wp_bind. eapply wp_global_options; [by norm|]. norm.
  apply wp_bind. eapply wp_global_flags; [by norm|]. norm.
  cbn [length app].
  apply wp_bind. wp_performs (region_guard_performs o g 1%nat 2%nat).
  { destruct Hp as [H1 _].
    stopped H1 (area_plan o g ++ visible_plan o g reg (final_plan o g)). }
  destruct Hp as [H1 Hreg1]. pose proof (performs_gis _ _ _ _ _ _ _ H1) as Hg1.
  norm_in Hg1. norm_in Hreg1.
  apply wp_bind. wp_performs (exclude_area_performs o g 1%nat 2%nat).
  { destruct Hp as [H2 _].
    pose proof (performs_trans _ _ _ _ _ _ _ _ _ _ _ H1 H2) as H.
    stopped H (visible_plan o g reg (final_plan o g)). }
  destruct Hp as [H2 Hreg2]. pose proof (performs_gis _ _ _ _ _ _ _ H2) as Hg2.
  rewrite (performs_value _ _ _ _ _ _ _ H2).
  pose proof (performs_trans _ _ _ _ _ _ _ _ _ _ _ H1 H2) as H12.
  apply wp_bind. wp_performs (exclude_visible_performs o g reg 1%nat 2%nat).
  { pose proof (performs_trans _ _ _ _ _ _ _ _ _ _ _ H12 Hp) as H.
    stopped H (final_plan o g). }
  pose proof (performs_gis _ _ _ _ _ _ _ Hp) as Hg3.
  rewrite (performs_value _ _ _ _ _ _ _ Hp).
  pose proof (performs_trans _ _ _ _ _ _ _ _ _ _ _ H12 Hp) as H123. clear Hp.
  apply wp_bind. wp_performs (adjust_discharge_performs o g 1%nat 2%nat).
  { pose proof (performs_trans _ _ _ _ _ _ _ _ _ _ _ H123 Hp) as H.
    stopped H [optimal_call o]. }
  rewrite (performs_value _ _ _ _ _ _ _ Hp).
  pose proof (performs_trans _ _ _ _ _ _ _ _ _ _ _ H123 Hp) as H1234. clear Hp.
  apply wp_bind. wp_performs (delegate_performs o 1%nat 2%nat).
  { pose proof (performs_trans _ _ _ _ _ _ _ _ _ _ _ H1234 Hp) as H.
    stopped H (@nil call). }
  pose proof (performs_trans _ _ _ _ _ _ _ _ _ _ _ H1234 Hp) as H.
  eapply (performs_log _ _ _ _ _ _ _ []) in H; [|done..].
  wp_step. rewrite H. reflexivity.
Qed.

(** ** The run of the script, told from the plan *)


Lemma absent_step c {A} calls causes st (r : exn + A) st' :
  (∀ c', calls c' → c' ≠ c) →
  (c, true) ∉ trace st → runs calls causes st r st' → (c, true) ∉ trace st'.
Proof.
  intros Hc Hun (_ & t & Ht & Hall & _) Hin.
  rewrite Ht in Hin. apply elem_of_app in Hin as [Hin|Hin]; [done|].
  rewrite Forall_forall in Hall. by eapply (Hc _ (Hall _ Hin)).
Qed.

Lemma guard_not_optimal o c : guard_call = c → c ≠ optimal_call o.
Proof. by intros <-. Qed.

Lemma area_not_optimal o OVW c : area_calls o OVW c → c ≠ optimal_call o.
Proof. by intros []. Qed.

Lemma visible_not_optimal o OVW (X : Prop) c : X ∧ visible_calls o OVW c → c ≠ optimal_call o.
Proof. by intros [_ []]. Qed.

Lemma adjusted_not_optimal o OVW c : adjustment_calls o OVW c → c ≠ optimal_call o.
Proof. by intros (exp & _ & ->). Qed.

(** A run that ends in an exception has not seen the delegated routine
    return. *)
Lemma main_failed a b o f st :
  globals st = Some (o, f) → (optimal_call o, true) ∉ trace st →
  wp (main a b) (λ r st', ∀ e, r = inl e → (optimal_call o, true) ∉ trace st') st.
Proof.
  intros Hgl Hun. unfold main.
  apply wp_bind, wp_new_list; norm.
  apply wp_bind, wp_new_list; norm.
  apply wp_bind, wp_atexit; norm.
  apply wp_bind, wp_gets; norm.
  apply wp_bind. eapply wp_global_options; [by norm|]. norm.
  apply wp_bind. eapply wp_global_flags; [by norm|]. norm.
  set (OVW := GRASS_OVERWRITE (gis st)).
  set (st0 := with_exitfuncs _ _).
  assert (Hun0 : (optimal_call o, true) ∉ trace st0) by done.
  clearbody st0. clear Hun.
  apply wp_bind.
  eapply wp_mono; [apply (region_guard_runs o _ (region st))|].
  intros r1 st1 (Hr1 & _).
  pose proof (absent_step _ _ _ _ _ _ (guard_not_optimal o) Hun0 Hr1) as Hun1.
  destruct r1 as [e|[]]; [done|].
  apply wp_bind.
  eapply wp_mono; [apply (exclude_area_runs o OVW _ (region st))|].
  intros r2 st2 (Hr2 & _ & Hrv).
  pose proof (absent_step _ _ _ _ _ _ (area_not_optimal o OVW) Hun1 Hr2) as Hun2.
  destruct r2 as [e|river]; [done|]. rewrite (Hrv _ eq_refl).
  apply wp_bind.
  eapply wp_mono; [apply (exclude_visible_runs o OVW)|].
  intros r3 st3 (Hr3 & _).
  pose proof (absent_step _ _ _ _ _ _ (visible_not_optimal o OVW _) Hun2 Hr3) as Hun3.
  destruct r3 as [e|river']; [done|].
  apply wp_bind.
  eapply wp_mono; [apply (adjust_discharge_runs o OVW _ (region st))|].
  intros r4 st4 (Hr4 & _).
  pose proof (absent_step _ _ _ _ _ _ (adjusted_not_optimal o OVW) Hun3 Hr4) as Hun4.
  destruct r4 as [e|d]; [done|].
  repeat wp_step; [done|].
  intros e _ Hin. apply elem_of_app in Hin as [Hin|Hin]; [done|].
  apply list_elem_of_singleton in Hin. discriminate Hin.
Qed.

(** The run of the script in a session, told from the plan. *)
Lemma script_exact g reg env o f v :
  env !! "GISBASE" = Some v →
  let t := attempt (fails g) [] (plan o g reg) in
  let done := bool_decide ((optimal_call o, true) ∈ t) in
  script env (o, f) (boot g reg)
  = (if done then 0 else 1,
     State g (Some (o, f)) (foldl (register_step 1 2) [[]; []; []] t)
       [Cleanup 1 2 false] t (foldl (region_step g) reg t)
       (if done then ["r.green.hydro.recommended completed!"] else []) []).
Proof.
  intros E t done.
  destruct (script_in_session g reg env (o, f) v E) as (r & st' & Hm & -> & Hp).
  pose proof (main_performs o f o f g reg) as Hx.
  pose proof (main_failed o f o f (entered g reg (o, f)) eq_refl) as Hf.
  unfold wp in Hx, Hf. cbn [fst snd] in Hm. rewrite Hm in Hx, Hf. cbn [fst snd] in Hx, Hf.
  fold t in Hx.
  assert (Ht : trace st' = t) by (by rewrite Hx).
  destruct r as [e|[]].
  - assert (done = false) as ->.
    { apply bool_decide_eq_false. rewrite <- Ht. eapply Hf; [|done].
      cbn. by intros ?%elem_of_nil. }
    destruct Hp as (_ & _ & _ & _ & _ & _ & _ & _ & _ & _ & _ & _ & Hc).
    by rewrite (cause_status _ _ _ _ Hc), Hx.
  - assert (done = true) as ->.
    { apply bool_decide_eq_true. rewrite <- Ht.
      destruct (main_post_returned _ _ _ Hp) as (t' & -> & _).
      rewrite app_assoc. apply elem_of_app. right. apply list_elem_of_here. }
    by rewrite Hx.
Qed.

(** ** Attempting a plan *)

Lemma attempt_extends f h p :
  ∃ t, attempt f h p = h ++ t ∧ Forall (λ ev, ev.1 ∈ p) t.
Proof.
  revert h. induction p as [|c p IH]; intros h; cbn.
  - exists []. by rewrite app_nil_r.
  - destruct (f h c).
    + exists [(c, false)]. split; [done|]. repeat constructor.
    + destruct (IH (h ++ [(c, true)])) as (t & -> & Ht).
      exists ((c, true) :: t). rewrite <- app_assoc. split; [done|].
      constructor; [by left|]. eapply Forall_impl; [exact Ht|].
      intros ev ?. by right.
Qed.

Lemma attempt_elem f h p ev : ev ∈ attempt f h p → ev ∈ h ∨ ev.1 ∈ p.
Proof.
  destruct (attempt_extends f h p) as (t & -> & Ht). rewrite elem_of_app.
  intros [?|Hin]; [by left|right]. rewrite Forall_forall in Ht. auto.
Qed.

Lemma attempt_first f h c p : ∃ ok, (c, ok) ∈ attempt f h (c :: p).
Proof.
  cbn. destruct (f h c).
  - exists false. apply elem_of_app. right. by left.
  - exists true. destruct (attempt_extends f (h ++ [(c, true)]) p) as (t & -> & _).
    apply elem_of_app. left. apply elem_of_app. right. by left.
Qed.

(** An event that stems neither from the log so far nor from the first
    calls of the plan shows that all of these returned. *)
Lemma attempt_reach f h p q ev :
  ev ∈ attempt f h (p ++ q) → ev ∉ h → ev.1 ∉ p →
  attempt f h (p ++ q) = attempt f (h ++ ((., true) <$> p)) q.
Proof.
  revert h. induction p as [|c p IH]; intros h Hin Hh Hp; cbn.
  - by rewrite app_nil_r.
  - cbn in Hin. destruct (f h c).
    + apply elem_of_app in Hin as [?|Hin]; [done|].
      apply list_elem_of_singleton in Hin. subst ev. destruct Hp. by left.
    + rewrite IH; [by rewrite <- app_assoc|done| |].
      * intros [?|Hc%list_elem_of_singleton]%elem_of_app; [done|].
        subst ev. destruct Hp. by left.
      * intros ?. destruct Hp. by right.
Qed.

(** A call of the plan that returned was followed by the rest of the plan. *)
Lemma attempt_returned f h p c q :
  (c, true) ∈ attempt f h (p ++ c :: q) → (c, true) ∉ h → c ∉ p →
  attempt f h (p ++ c :: q) = attempt f (h ++ ((., true) <$> p) ++ [(c, true)]) q.
Proof.
  intros Hin Hh Hp. rewrite (attempt_reach _ _ _ _ _ Hin Hh Hp) in Hin |- *.
  cbn in Hin |- *. destruct (f _ c).
  - apply elem_of_app in Hin as [Hin|Hin].
    + apply elem_of_app in Hin as [?|Hin]; [done|].
      apply list_elem_of_fmap in Hin as (c' & [= <-] & ?). done.
    + apply list_elem_of_singleton in Hin. discriminate Hin.
  - by rewrite <- app_assoc.
Qed.

Lemma foldl_register a b t :
  foldl (register_step 1 2) [[]; a; b] t
  = [[]; a ++ names_of raster t; b ++ names_of vector t].
Proof.
  revert a b. induction t as [|ev t IH]; intros a b; cbn [foldl].
  - unfold names_of. cbn. by rewrite !app_nil_r.
  - unfold register_step at 2, names_of. cbn [omap list_omap].
    destruct (registers ev) as [[[] n]|]; cbn; rewrite IH; unfold names_of;
      by rewrite <- ?app_assoc.
Qed.


(** ** The calls of the plan, by kind *)

Lemma restoring_call_inv reg c : restoring_call reg = Some c → restoring reg c.
Proof.
  unfold restoring_call, restoring.
  destruct (reg !! "rows") eqn:?; [|done]. destruct (reg !! "e") eqn:?; [|done].
  destruct (reg !! "cols") eqn:?; [|done]. destruct (reg !! "n") eqn:?; [|done].
  destruct (reg !! "s") eqn:?; [|done]. destruct (reg !! "w") eqn:?; [|done].
  destruct (reg !! "ewres") eqn:?; [|done]. destruct (reg !! "nsres") eqn:?; [|done].
  cbn. intros [= <-]. do 8 eexists. by split_and!.
Qed.

Lemma area_plan_elem o g c :
  c ∈ area_plan o g → area_calls o (GRASS_OVERWRITE g) c.
Proof.
  unfold area_plan. destruct (Py.truth (Opt.area o)) eqn:Ea; [|by intros ?%elem_of_nil].
  destruct (Py.truth (Opt.buff o)) eqn:Eb; cbn; intros Hin;
    repeat (apply elem_of_cons in Hin as [->|Hin]);
    try (by apply elem_of_nil in Hin); by constructor.
Qed.

Lemma seen_plan_elem o g pl mset c :
  c ∈ seen_plan o g pl mset →
  c = OpenVector pl mset
  ∨ (∃ i pt, c = viewshed_call o (GRASS_OVERWRITE g) i pt)
  ∨ ∃ terms, c = MapCalc ("final_vis = " +:+ terms) (GRASS_OVERWRITE g).
Proof.
  unfold seen_plan. intros [->|Hin]%elem_of_cons; [by left|right].
  apply elem_of_app in Hin as [Hin|Hin].
  - apply elem_of_lookup_imap in Hin as (i & pt & -> & _). left. by eexists _, _.
  - apply list_elem_of_singleton in Hin as ->. right. by eexists.
Qed.

Lemma restore_plan_elem o g reg rest c :
  c ∈ restore_plan o g reg rest →
  restoring reg c ∨ c = to_vect_call (GRASS_OVERWRITE g)
  ∨ ∃ n, Py.int (Opt.n_points o) = Some n
         ∧ (c = droprow_call o (GRASS_OVERWRITE g) n
            ∨ c = visible_overlay_call o (GRASS_OVERWRITE g) ∨ c ∈ rest).
Proof.
  unfold restore_plan. destruct (restoring_call reg) as [c'|] eqn:Ec;
    [|by intros ?%elem_of_nil].
  intros [->|Hin]%elem_of_cons; [left; by apply restoring_call_inv|right].
  apply elem_of_cons in Hin as [->|Hin]; [by left|right].
  destruct (Py.int (Opt.n_points o)) as [n|]; [|by apply elem_of_nil in Hin].
  exists n. split; [done|].
  apply elem_of_cons in Hin as [->|Hin]; [by left|right].
  apply elem_of_cons in Hin as [->|Hin]; [by left|by right].
Qed.

Lemma visible_plan_elem o g reg rest c :
  c ∈ visible_plan o g reg rest →
  (Py.truth (Opt.points_view o) = true ∧ visible_calls o (GRASS_OVERWRITE g) c)
  ∨ c ∈ rest.
Proof.
  unfold visible_plan. destruct (Py.truth (Opt.points_view o)) eqn:Ev; [|by right].
  intros [->|Hin]%elem_of_cons; [left; split; [done|constructor]|].
  apply elem_of_cons in Hin as [->|Hin]; [left; split; [done|constructor]|].
  destruct (view_map _) as [[pl mset]|] eqn:Em; [|by apply elem_of_nil in Hin].
  apply elem_of_app in Hin as [Hin|Hin].
  - left. split; [done|].
    apply seen_plan_elem in Hin as [->|[(i & pt & ->)|(terms & ->)]];
      by constructor.
  - apply restore_plan_elem in Hin
      as [(?&?&?&?&?&?&?&?& -> & _)|[->|(n & Hn & [->|[->|?]])]];
      [left; split; [done|constructor]..|by right]. done.
Qed.

Lemma final_plan_elem o g c :
  c ∈ final_plan o g → adjustment_calls o (GRASS_OVERWRITE g) c ∨ c = optimal_call o.
Proof.
  unfold final_plan. intros [Hin|Hin]%elem_of_app.
  - left. apply list_elem_of_fmap in Hin as (e & -> & He).
    exists e. split; [|done]. destruct (adjustment o); cbn in He.
    + by apply list_elem_of_singleton in He as ->.
    + by apply elem_of_nil in He.
  - right. by apply list_elem_of_singleton in Hin.
Qed.

(** The plan is guarded by the two keys read from the region answer. *)
Lemma plan_guarded o g reg c :
  c ∈ plan o g reg → c ≠ guard_call →
  is_Some (region_m g !! "nsres") ∧ is_Some (region_m g !! "ewres")
  ∧ plan o g reg
    = guard_call :: area_plan o g ++ visible_plan o g reg (final_plan o g).
Proof.
  unfold plan, guard_plan. intros [->|Hin]%elem_of_cons Hc; [done|].
  destruct (region_m g !! "nsres"); [|by apply elem_of_nil in Hin].
  destruct (region_m g !! "ewres"); [|by apply elem_of_nil in Hin].
  by split_and!.
Qed.

Lemma plan_complete o g reg :
  optimal_call o ∈ plan o g reg → readable g reg o.
Proof.
  intros Hin. destruct (plan_guarded _ _ _ _ Hin) as (Hns & Hew & Hp); [done|].
  rewrite Hp in Hin. split.
  { intros k Hk. repeat (apply elem_of_cons in Hk as [->|Hk]); try done.
    by apply elem_of_nil in Hk. }
  intros Hpv. apply elem_of_cons in Hin as [Hin|Hin]; [discriminate Hin|].
  apply elem_of_app in Hin as [Hin|Hin].
  { apply area_plan_elem in Hin. inversion Hin. }
  unfold visible_plan in Hin. rewrite Hpv in Hin.
  do 2 (apply elem_of_cons in Hin as [Hin|Hin]; [discriminate Hin|]).
  destruct (view_map _) as [[pl mset]|]; [|by apply elem_of_nil in Hin].
  apply elem_of_app in Hin as [Hin|Hin].
  { apply seen_plan_elem in Hin as [?|[(i & pt & ?)|(terms & ?)]]; discriminate. }
  unfold restore_plan in Hin.
  destruct (restoring_call reg) as [c|] eqn:Ec; [|by apply elem_of_nil in Hin].
  apply restoring_call_inv in Ec
    as (rows & e & cols & n & s & w & ewres & nsres & -> & ? & ? & ? & ? & ? & ? & ? & ?).
  do 2 (apply elem_of_cons in Hin as [Hin|Hin]; [discriminate Hin|]).
  destruct (Py.int _); [|by apply elem_of_nil in Hin].
  split_and!; [|by eexists..].
  intros k Hk. unfold region_keys in Hk.
  repeat (apply elem_of_cons in Hk as [->|Hk]); try by eexists.
  by apply elem_of_nil in Hk.
Qed.

Lemma filter_returned (P : call → bool) (p : list call) :
  List.filter (λ ev : event, P ev.1) ((., true) <$> p) = (., true) <$> List.filter P p.
Proof.
  induction p as [|c p IH]; [done|]. cbn. rewrite IH. by destruct (P c).
Qed.

Lemma filter_all {A} (P : A → bool) (l : list A) :
  Forall (λ x, P x = true) l → List.filter P l = l.
Proof. induction 1 as [|x l Hx _ IH]; [done|]. cbn. by rewrite Hx, IH. Qed.

Lemma adjustment_target o e :
  adjustment o = Some e → mapcalc_target e = "tmp_discharge".
Proof.
  unfold adjustment.
  destruct (Py.truth (Opt.mfd o)); [|destruct (Py.truth (Opt.discharge_natural o))];
    intros [= <-]; apply mapcalc_target_tmp_discharge.
Qed.

Lemma final_plan_not_viewshed o g c : c ∈ final_plan o g → is_viewshed c = false.
Proof. intros [(e & _ & ->)| ->]%final_plan_elem; done. Qed.

Lemma restore_plan_not_viewshed o g reg c :
  c ∈ restore_plan o g reg (final_plan o g) → is_viewshed c = false.
Proof.
  intros Hin.
  apply restore_plan_elem in Hin
    as [(?&?&?&?&?&?&?&?& -> & _)|[->|(n & _ & [->|[->|?]])]];
    try done. by eapply final_plan_not_viewshed.
Qed.

Lemma area_plan_not_viewshed o g : List.filter is_viewshed (area_plan o g) = [].
Proof.
  unfold area_plan. by destruct (Py.truth (Opt.area o)), (Py.truth (Opt.buff o)).
Qed.

Lemma foldl_inert g (t : list event) r :
  Forall (λ ev, ∀ r, region_step g r ev = r) t → foldl (region_step g) r t = r.
Proof.
  revert r. induction t as [|ev t IH]; intros r Ht; [done|].
  apply Forall_cons in Ht as [Hev Ht]. cbn. rewrite Hev. by apply IH.
Qed.

Lemma quiet_inert g ev r : quiet ev.1 = true → region_step g r ev = r.
Proof.
  destruct ev as [[prog kw| | |] []]; try done. cbn.
  by destruct (String.eqb prog "g.region").
Qed.

Lemma failed_inert g c r : region_step g r (c, false) = r.
Proof. by destruct c. Qed.

Lemma area_plan_quiet o g c : c ∈ area_plan o g → quiet c = true.
Proof. intros H%area_plan_elem. by destruct H. Qed.

Lemma seen_plan_quiet o g pl mset c : c ∈ seen_plan o g pl mset → quiet c = true.
Proof. by intros [->|[(i & pt & ->)|(terms & ->)]]%seen_plan_elem. Qed.

Lemma final_plan_quiet o g c : c ∈ final_plan o g → quiet c = true.
Proof. by intros [(e & _ & ->)| ->]%final_plan_elem. Qed.

Lemma foldl_quiet g (p : list call) r :
  Forall (λ c, quiet c = true) p → foldl (region_step g) r ((., true) <$> p) = r.
Proof.
  intros Hp. apply foldl_inert, Forall_fmap. eapply Forall_impl; [exact Hp|].
  intros c Hc r'. by apply quiet_inert.
Qed.

(** After the resolution switch, a log without the vectorisation holds no
    region command that returned. *)
Lemma unrestored_inert o g reg f h pl mset r :
  (∀ c, restoring reg c → (c, true) ∉ h) →
  (∀ ok, (to_vect_call (GRASS_OVERWRITE g), ok)
         ∉ attempt f h (seen_plan o g pl mset
                        ++ restore_plan o g reg (final_plan o g))) →
  foldl (region_step g) r
    (attempt f h (seen_plan o g pl mset ++ restore_plan o g reg (final_plan o g)))
  = foldl (region_step g) r h.
Proof.
  intros Hh Hun. unfold restore_plan in *.
  destruct (restoring_call reg) as [c|] eqn:Ec.
  2:{ destruct (attempt_extends f h (seen_plan o g pl mset ++ [])) as (t & -> & Ht).
      rewrite foldl_app. apply foldl_inert. eapply Forall_impl; [exact Ht|].
      intros ev Hev r'. rewrite app_nil_r in Hev.
      eapply quiet_inert, seen_plan_quiet, Hev. }
  pose proof (restoring_call_inv _ _ Ec) as Hc.
  set (tail := match Py.int (Opt.n_points o) with Some _ => _ | None => _ end) in *.
  destruct (decide ((c, true) ∈ attempt f h
                      (seen_plan o g pl mset
                       ++ c :: to_vect_call (GRASS_OVERWRITE g) :: tail))) as [Hin|Hout].
  - rewrite (attempt_returned _ _ _ _ _ Hin) in Hun.
    + destruct (attempt_first f (h ++ ((., true) <$> seen_plan o g pl mset) ++ [(c, true)])
                  (to_vect_call (GRASS_OVERWRITE g)) tail) as [ok Hok].
      by destruct (Hun ok).
    + by apply Hh.
    + destruct Hc as (?&?&?&?&?&?&?&?& -> & _).
      by intros [?|[(i & pt & ?)|(terms & ?)]]%seen_plan_elem.
  - destruct (attempt_extends f h
                (seen_plan o g pl mset
                 ++ c :: to_vect_call (GRASS_OVERWRITE g) :: tail)) as (t & Et & Ht).
    rewrite Et in Hout |- *. rewrite foldl_app. apply foldl_inert, Forall_forall.
    intros [c' ok] Hev r'. rewrite Forall_forall in Ht. specialize (Ht _ Hev).
    destruct ok; [|apply failed_inert]. cbn [fst] in Ht.
    apply quiet_inert. cbn [fst].
    apply elem_of_app in Ht as [Ht|Ht]; [by eapply seen_plan_quiet|].
    apply elem_of_cons in Ht as [->|Ht].
    { destruct Hout. apply elem_of_app. by right. }
    apply elem_of_cons in Ht as [->|Ht]; [done|].
    unfold tail in Ht. destruct (Py.int (Opt.n_points o)); [|by apply elem_of_nil in Ht].
    do 2 (apply elem_of_cons in Ht as [->|Ht]; [done|]).
    by eapply final_plan_quiet.
Qed.

(** The visibility block either runs to its end, whatever follows, or
    stops early, whatever follows. *)
Lemma visible_plan_cases o g reg :
  ((∀ rest, visible_plan o g reg rest = visible_plan o g reg [] ++ rest)
   ∧ (Py.truth (Opt.points_view o) = true →
      visible_overlay_call o (GRASS_OVERWRITE g) ∈ visible_plan o g reg []))
  ∨ (∀ rest, visible_plan o g reg rest = visible_plan o g reg []).
Proof.
  unfold visible_plan, restore_plan.
  destruct (Py.truth (Opt.points_view o)); [|left; split; [done|discriminate]].
  destruct (view_map (Opt.points_view o)) as [[pl mset]|]; [|by right].
  destruct (restoring_call reg) as [c|]; [|by right].
  destruct (Py.int (Opt.n_points o)) as [n|]; [|by right].
  left. split.
  - intros rest. cbn. by rewrite <- !app_assoc.
  - intros _. do 2 apply list_elem_of_further. apply elem_of_app. right. solve_elem.
Qed.

Lemma area_overlay_planned o g :
  Py.truth (Opt.area o) = true →
  area_overlay_call o (GRASS_OVERWRITE g) ∈ area_plan o g.
Proof.
  intros Ha. unfold area_plan. rewrite Ha.
  destruct (Py.truth (Opt.buff o)); cbn; solve_elem.
Qed.


(** ** The options a run reads, and the viewpoint name *)

Lemma plan_relevant o g reg : plan (relevant o) g reg = plan o g reg.
Proof.
  destruct o as [e r ef lp lm d pm dc m dn pc a b pv vr np op opt ov].
  unfold plan, guard_plan, area_plan, visible_plan, final_plan, optimal_call,
    usable_discharge, adjustment, river2, river1, buffer_call, area_overlay_call,
    area_binput, viewshed_call, droprow_call, where_clause, visible_overlay_call,
    river1, relevant.
  cbn [Opt.elevation Opt.river Opt.efficiency Opt.len_plant Opt.len_min Opt.distance
       Opt.p_min Opt.discharge_current Opt.mfd Opt.discharge_natural Opt.percentage
       Opt.area Opt.buff Opt.points_view Opt.visibility_resolution Opt.n_points
       Opt.output_plant Opt.output_point Opt.output_vis].
  destruct (Py.truth a), (Py.truth pv), (Py.truth m) eqn:Em;
    cbn [negb andb]; try reflexivity.
  all: destruct dn; cbn [Py.truth]; try rewrite Em; reflexivity.
Qed.

Lemma optimal_relevant o : optimal_call (relevant o) = optimal_call o.
Proof.
  destruct o as [e r ef lp lm d pm dc m dn pc a b pv vr np op opt ov].
  unfold optimal_call, usable_discharge, adjustment, river2, river1, relevant.
  cbn [Opt.elevation Opt.river Opt.efficiency Opt.len_plant Opt.len_min Opt.distance
       Opt.p_min Opt.discharge_current Opt.mfd Opt.discharge_natural Opt.percentage
       Opt.area Opt.buff Opt.points_view Opt.visibility_resolution Opt.n_points
       Opt.output_plant Opt.output_point Opt.output_vis].
  destruct (Py.truth m) eqn:Em; cbn [negb andb]; [reflexivity|].
  destruct dn; cbn [Py.truth]; reflexivity.
Qed.

Lemma split_nonempty sep s : Py.split sep s ≠ [].
Proof.
  destruct s as [|a s]; [done|]. cbn.
  destruct (Ascii.eqb a sep); [done|]. by destruct (Py.split sep s).
Qed.

Lemma join_split sep s :
  join sep (Py.split sep s) = s
  ∧ Forall (λ x, Py.contains sep x = false) (Py.split sep s).
Proof.
  induction s as [|a s [IH1 IH2]]; [by repeat constructor|].
  cbn [Py.split]. pose proof (split_nonempty sep s) as Hne.
  destruct (Py.split sep s) as [|h t]; [done|]. clear Hne.
  destruct (Ascii.eqb a sep) eqn:Ea.
  - apply Ascii.eqb_eq in Ea as ->. split; [|by constructor].
    change (String sep (join sep (h :: t)) = String sep s). by rewrite IH1.
  - apply Forall_cons in IH2 as [Hh Ht]. split.
    + destruct t as [|x t].
      * cbn in *. by rewrite IH1.
      * change (String a (h +:+ String sep (join sep (x :: t))) = String a s).
        f_equal. exact IH1.
    + constructor; [|done]. cbn. by rewrite Ea.
Qed.


(** ** The names in the registries *)

Lemma names_of_elem k n t :
  n ∈ names_of k t →
  ∃ ev, ev ∈ t ∧ intermediate_of ev.1 = Some (k, n) ∧ (ev.2 = true ∨ n = "final_vis").
Proof.
  unfold names_of. intros (ev & Hev & Hn)%list_elem_of_omap. exists ev. split; [done|].
  unfold registers in Hn. destruct (intermediate_of ev.1) as [[k' n']|]; [|done].
  destruct (ev.2 || _) eqn:Hb; [|done]. case_bool_decide; [|done].
  injection Hn as ->. subst k'. split; [done|].
  apply orb_true_iff in Hb as [?|Hb]; [by left|right].
  apply andb_true_iff in Hb as [_ Hb]. by apply String.eqb_eq in Hb.
Qed.

Lemma emitted_intermediate o OVW c k n :
  emitted o OVW c → intermediate_of c = Some (k, n) →
  match k with
  | vector => n ∈ ["buff_area"; "tmp1_river"; "tmp_vis"; "tmp2_river"]
  | raster => n = "final_vis" ∨ n = "tmp_discharge"
              ∨ ∃ i : nat, n = "visual_" +:+ pretty i
  end.
Proof.
  intros H. inversion H as [|c' Hc|c' Hv Hc|c' Hc|]; subst; try discriminate.
  - destruct Hc; intros [= <- <-]; solve_elem.
  - destruct Hc; try discriminate.
    + intros [= <- <-]. right. right. by eexists.
    + cbn. rewrite mapcalc_target_final_vis. intros [= <- <-]. by left.
    + intros [= <- <-]. solve_elem.
    + intros [= <- <-]. solve_elem.
  - destruct Hc as (exp & Hexp & ->). unfold adjustment in Hexp.
    destruct (Py.truth (Opt.mfd o)); [|destruct (Py.truth (Opt.discharge_natural o))];
      injection Hexp as <- || discriminate Hexp.
    all: cbn; rewrite mapcalc_target_tmp_discharge; intros [= <- <-]; right; by left.
Qed.

Lemma names_of_app k t1 t2 : names_of k (t1 ++ t2) = names_of k t1 ++ names_of k t2.
Proof. apply omap_app. Qed.

Lemma names_of_one k c ok :
  names_of k [(c, ok)] `sublist_of` option_list (creates k c).
Proof.
  unfold names_of, creates, registers. cbn.
  destruct (intermediate_of c) as [[k' n]|]; [|done].
  destruct (ok || _); [|apply sublist_nil_l]. by case_bool_decide.
Qed.

Lemma omap_cons_creates k c p :
  omap (creates k) (c :: p) = option_list (creates k c) ++ omap (creates k) p.
Proof. cbn. by destruct (creates k c). Qed.

(** The names a run registers are among those of the maps its plan
    writes, in the order of the plan. *)
Lemma names_of_attempt f h p k :
  ∃ l, names_of k (attempt f h p) = names_of k h ++ l
       ∧ l `sublist_of` omap (creates k) p.
Proof.
  revert h. induction p as [|c p IH]; intros h; cbn [attempt].
  - exists []. by rewrite app_nil_r.
  - rewrite omap_cons_creates. destruct (f h c).
    + exists (names_of k [(c, false)]). rewrite names_of_app. split; [done|].
      apply sublist_inserts_r, names_of_one.
    + destruct (IH (h ++ [(c, true)])) as (l & -> & Hl).
      exists (names_of k [(c, true)] ++ l). rewrite names_of_app, <- app_assoc.
      split; [done|]. apply sublist_app; [apply names_of_one|done].
Qed.

Lemma creates_area o g k :
  omap (creates k) (area_plan o g)
  `sublist_of` match k with vector => ["buff_area"; "tmp1_river"] | raster => [] end.
Proof.
  unfold area_plan.
  destruct k, (Py.truth (Opt.area o)), (Py.truth (Opt.buff o)); cbn;
    repeat first [ done | apply sublist_skip | apply sublist_cons | apply sublist_nil_l ].
Qed.

Lemma creates_final o g k :
  omap (creates k) (final_plan o g)
  `sublist_of` match k with raster => ["tmp_discharge"] | vector => [] end.
Proof.
  unfold final_plan, adjustment.
  destruct k, (Py.truth (Opt.mfd o)), (Py.truth (Opt.discharge_natural o)); cbn;
    repeat first [ done | apply sublist_skip | apply sublist_cons | apply sublist_nil_l ].
Qed.

Lemma creates_viewsheds o OVW k (pts : list (list Q)) i :
  omap (creates k) (imap (λ j, viewshed_call o OVW (i + j)) pts)
  = match k with
    | raster => (λ j, "visual_" +:+ pretty j) <$> seq i (length pts)
    | vector => []
    end.
Proof.
  revert i. induction pts as [|pt pts IH]; intros i; [by destruct k|].
  cbn [imap length seq fmap list_fmap]. rewrite omap_cons_creates.
  rewrite (imap_ext _ (λ j, viewshed_call o OVW (S i + j))).
  2:{ intros j x _. cbn. by rewrite Nat.add_succ_r. }
  rewrite IH, Nat.add_0_r. by destruct k.
Qed.

Lemma creates_seen o g pl mset k :
  omap (creates k) (seen_plan o g pl mset)
  = match k with
    | raster => visuals (length (points_of g pl mset)) ++ ["final_vis"]
    | vector => []
    end.
Proof.
  unfold seen_plan. rewrite omap_cons_creates, omap_app.
  rewrite (creates_viewsheds o (GRASS_OVERWRITE g) k _ 0). by destruct k.
Qed.

Lemma creates_restore o g reg k :
  omap (creates k) (restore_plan o g reg (final_plan o g))
  `sublist_of` match k with
               | vector => ["tmp_vis"; "tmp2_river"]
               | raster => ["tmp_discharge"]
               end.
Proof.
  unfold restore_plan. destruct (restoring_call reg) as [c|] eqn:Ec;
    [|destruct k; apply sublist_nil_l].
  apply restoring_call_inv in Ec as (?&?&?&?&?&?&?&?& -> & _).
  rewrite !omap_cons_creates.
  destruct (Py.int (Opt.n_points o)) as [n|].
  - rewrite !omap_cons_creates. pose proof (creates_final o g k) as Hf.
    destruct k; cbn.
    + done.
    + apply sublist_skip, sublist_skip.
      by destruct (omap (creates vector) (final_plan o g)); [|inversion Hf].
  - destruct k; cbn;
      repeat first [ done | apply sublist_skip | apply sublist_cons | apply sublist_nil_l ].
Qed.

Lemma creates_plan o g reg k :
  ∃ n, omap (creates k) (plan o g reg) `sublist_of` temporaries k n.
Proof.
  unfold plan, guard_plan. rewrite omap_cons_creates.
  change (option_list (creates k guard_call)) with (@nil string). cbn [app].
  destruct (region_m g !! "nsres"); [|exists 0%nat; apply sublist_nil_l].
  destruct (region_m g !! "ewres"); [|exists 0%nat; apply sublist_nil_l].
  rewrite omap_app. pose proof (creates_area o g k) as Ha.
  unfold visible_plan. destruct (Py.truth (Opt.points_view o)).
  - rewrite !omap_cons_creates.
    change (option_list (creates k (ParseCommand "g.region" [("flags", Py.Str "pg")])))
      with (@nil string).
    change (option_list (creates k (RunCommand "g.region" _))) with (@nil string).
    cbn [app].
    destruct (view_map (Opt.points_view o)) as [[pl mset]|].
    + exists (length (points_of g pl mset)).
      rewrite omap_app, creates_seen. pose proof (creates_restore o g reg k) as Hr.
      destruct k; cbn [temporaries].
      * destruct (omap (creates raster) (area_plan o g)); [|inversion Ha]. cbn [app].
        rewrite <- app_assoc. apply sublist_app; [done|]. by apply sublist_skip.
      * by apply (sublist_app _ ["buff_area"; "tmp1_river"] _ ["tmp_vis"; "tmp2_river"]).
    + exists 0%nat. rewrite app_nil_r. destruct k; cbn [temporaries visuals seq fmap
        list_fmap app].
      * etrans; [exact Ha|apply sublist_nil_l].
      * by apply (sublist_inserts_r ["tmp_vis"; "tmp2_river"] _
                    ["buff_area"; "tmp1_river"]).
  - exists 0%nat. pose proof (creates_final o g k) as Hf.
    destruct k; cbn [temporaries visuals seq fmap list_fmap app].
    + destruct (omap (creates raster) (area_plan o g)); [|inversion Ha]. cbn [app].
      by apply sublist_cons.
    + destruct (omap (creates vector) (final_plan o g)); [|inversion Hf].
      rewrite app_nil_r.
      by apply (sublist_inserts_r ["tmp_vis"; "tmp2_river"] _ ["buff_area"; "tmp1_river"]).
Qed.

#[local] Instance visual_inj : Inj (=) (=) (λ i : nat, "visual_" +:+ pretty i).
Proof. intros i j [= H]. by apply (inj pretty). Qed.

Lemma temporaries_NoDup k n : NoDup (temporaries k n).
Proof.
  destruct k; cbn [temporaries].
  - apply NoDup_app. split_and!.
    + unfold visuals. apply NoDup_fmap_2; [apply _|apply NoDup_seq].
    + intros x (i & -> & _)%list_elem_of_fmap Hin.
      repeat (apply elem_of_cons in Hin as [Hin|Hin]; [discriminate Hin|]).
      by apply elem_of_nil in Hin.
    + by apply (bool_decide_unpack _).
  - by apply (bool_decide_unpack _).
Qed.

(** * Further properties *)

(** Property X1. In a GRASS session the script makes the calls of its plan
    in the order of the plan, up to and including the first call that
    fails: the region query, the buffer and the first overlay when an area
    is given, the visibility steps when viewpoints are given, the map
    algebra of the discharge, the delegated routine. Outside a session it
    makes no call. *)
Theorem calls_follow_the_plan g reg env argv :
  trace (script env argv (boot g reg)).2
  = match env !! "GISBASE" with
    | Some _ => attempt (fails g) [] (plan argv.1 g reg)
    | None => []
    end.
Proof.
  destruct argv as [o f]. destruct (env !! "GISBASE") as [v|] eqn:E.
  - by rewrite (script_exact g reg env o f v E).
  - by rewrite (script_no_session _ _ _ _ E).
Qed.

(** Property X2. Whenever the map algebra of the visibility raster is
    reached, one viewshed has been computed for every point of the
    viewpoint map and for nothing else, the one of point number [i] into
    [visual_i], each has returned, and the expression adds them all to
    zero; for a map without points it is [final_vis = 0]. *)
Theorem one_viewshed_per_viewpoint g reg env argv exp ovw ok :
  let run := script env argv (boot g reg) in
  (MapCalc exp ovw, ok) ∈ trace run.2 → mapcalc_target exp = "final_vis" →
  ∃ pl mset,
    view_map (Opt.points_view argv.1) = Some (pl, mset)
    ∧ exp = "final_vis = " +:+ summed 0 (length (points_of g pl mset)) "0"
    ∧ List.filter (λ ev, is_viewshed ev.1) (trace run.2)
      = (., true) <$> imap (viewshed_call argv.1 (GRASS_OVERWRITE g))
                        (points_of g pl mset).
Proof.
  destruct argv as [o f]. intros run. subst run.
  destruct (env !! "GISBASE") as [v|] eqn:E.
  2:{ rewrite (script_no_session _ _ _ _ E). by intros ?%elem_of_nil. }
  rewrite (script_exact g reg env o f v E). cbn [fst snd trace].
  intros Hin Htarget.
  assert (Hfinal : MapCalc exp ovw ∉ final_plan o g).
  { intros [(e & He & [= -> ->])|?]%final_plan_elem; [|done].
    rewrite (adjustment_target _ _ He) in Htarget. discriminate Htarget. }
  pose proof Hin as Hplan.
  apply attempt_elem in Hplan as [Hplan|Hplan]; [by apply elem_of_nil in Hplan|].
  cbn [fst] in Hplan.
  destruct (plan_guarded _ _ _ _ Hplan) as (_ & _ & Hp); [done|].
  rewrite Hp in Hplan, Hin |- *. clear Hp.
  apply elem_of_cons in Hplan as [Hplan|Hplan]; [discriminate Hplan|].
  apply elem_of_app in Hplan as [Hplan|Hplan].
  { apply area_plan_elem in Hplan. inversion Hplan. }
  unfold visible_plan in Hplan, Hin |- *.
  destruct (Py.truth (Opt.points_view o)) eqn:Ev; [|done].
  do 2 (apply elem_of_cons in Hplan as [Hplan|Hplan]; [discriminate Hplan|]).
  destruct (view_map (Opt.points_view o)) as [[pl mset]|] eqn:Em;
    [|by apply elem_of_nil in Hplan].
  apply elem_of_app in Hplan as [Hplan|Hplan].
  2:{ apply restore_plan_elem in Hplan
        as [(?&?&?&?&?&?&?&?& ? & _)|[?|(n & _ & [?|[?|?]])]]; done. }
  unfold seen_plan in Hplan, Hin |- *.
  apply elem_of_cons in Hplan as [Hplan|Hplan]; [discriminate Hplan|].
  apply elem_of_app in Hplan as [Hplan|Hplan].
  { apply elem_of_lookup_imap in Hplan as (i & pt & Hc & _). discriminate Hc. }
  apply list_elem_of_singleton in Hplan. injection Hplan as -> ->.
  exists pl, mset. split; [done|]. split; [done|]. cbn [fst].
  set (seen := imap (viewshed_call o (GRASS_OVERWRITE g)) (points_of g pl mset)) in *.
  set (formula := MapCalc _ _) in *.
  set (rest := restore_plan o g reg (final_plan o g)) in *.
  set (p := guard_call :: area_plan o g
            ++ ParseCommand "g.region" [("flags", Py.Str "pg")]
            :: RunCommand "g.region" [("res", Py.Str (Opt.visibility_resolution o))]
            :: OpenVector pl mset :: seen).
  assert (Hsplit : guard_call :: area_plan o g
                   ++ ParseCommand "g.region" [("flags", Py.Str "pg")]
                   :: RunCommand "g.region"
                        [("res", Py.Str (Opt.visibility_resolution o))]
                   :: (OpenVector pl mset :: seen ++ [formula]) ++ rest
                   = p ++ formula :: rest).
  { unfold p. cbn. by rewrite <- !app_assoc. }
  rewrite Hsplit in Hin |- *. clear Hsplit.
  rewrite (attempt_reach _ _ _ _ _ Hin); cycle 1.
  { by intros ?%elem_of_nil. }
  { unfold p, formula. cbn [fst]. intros Hc.
    apply elem_of_cons in Hc as [Hc|Hc]; [discriminate Hc|].
    apply elem_of_app in Hc as [Hc|Hc]; [apply area_plan_elem in Hc; inversion Hc|].
    do 3 (apply elem_of_cons in Hc as [Hc|Hc]; [discriminate Hc|]).
    apply elem_of_lookup_imap in Hc as (i & pt & Hc & _). discriminate Hc. }
  destruct (attempt_extends (fails g) ([] ++ ((., true) <$> p)) (formula :: rest))
    as (t & -> & Ht).
  cbn [app]. rewrite List.filter_app, filter_returned.
  rewrite (filter_none (λ ev : event, is_viewshed ev.1)
             (λ ev : event, ev.1 ∈ formula :: rest) t), app_nil_r; [| |exact Ht].
  2:{ intros ev [->|Hc]%elem_of_cons; [done|]. by eapply restore_plan_not_viewshed. }
  f_equal. unfold p. cbn [List.filter is_viewshed guard_call].
  rewrite List.filter_app, area_plan_not_viewshed. cbn.
  apply filter_all, Forall_forall. intros c (i & pt & -> & _)%elem_of_lookup_imap. done.
Qed.

Lemma one_viewshed_per_viewpoint_witness :
  let run := script sample_environ (view_options, no_flags)
               (boot (sample_session "10") sample_region) in
  (MapCalc "final_vis = 0+visual_0+visual_1" false, true) ∈ trace run.2
  ∧ length (List.filter (λ ev, is_viewshed ev.1) (trace run.2)) = 2%nat.
Proof.
  intros run.
  assert (Hin : (MapCalc "final_vis = 0+visual_0+visual_1" false, true) ∈ trace run.2)
    by in_trace.
  split; [exact Hin|].
  destruct (one_viewshed_per_viewpoint (sample_session "10") sample_region sample_environ
              (view_options, no_flags) _ _ _ Hin eq_refl) as (pl & mset & _ & _ & Hf).
  unfold run. rewrite Hf. by rewrite length_fmap, length_imap.
Defined.

(** Property X3. When the delegated routine is called, the exclusions
    asked for have been made: the overlay with the area has returned when
    an area is given, and the overlay with what the viewpoints see has
    returned when viewpoints are given. *)
Theorem delegation_follows_the_exclusions g reg env argv ok :
  let run := script env argv (boot g reg) in
  (optimal_call argv.1, ok) ∈ trace run.2 →
  (Py.truth (Opt.area argv.1) = true →
   (area_overlay_call argv.1 (GRASS_OVERWRITE g), true) ∈ trace run.2)
  ∧ (Py.truth (Opt.points_view argv.1) = true →
     (visible_overlay_call argv.1 (GRASS_OVERWRITE g), true) ∈ trace run.2).
Proof.
  destruct argv as [o f]. intros run. subst run. cbn [fst].
  destruct (env !! "GISBASE") as [v|] eqn:E.
  2:{ rewrite (script_no_session _ _ _ _ E). by intros ?%elem_of_nil. }
  rewrite (script_exact g reg env o f v E). cbn [fst snd trace].
  intros Hin. pose proof Hin as Hplan.
  apply attempt_elem in Hplan as [Hplan|Hplan]; [by apply elem_of_nil in Hplan|].
  cbn [fst] in Hplan.
  destruct (plan_guarded _ _ _ _ Hplan) as (_ & _ & Hp); [done|].
  rewrite Hp in Hplan, Hin |- *. clear Hp.
  assert (Hpre : ∀ rest, optimal_call o ∉ guard_call :: area_plan o g
                                          ++ visible_plan o g reg [] ++ rest
                         ∨ optimal_call o ∈ rest).
  { intros rest. destruct (decide (optimal_call o ∈ rest)) as [?|Hn]; [by right|left].
    intros [Hc|Hc]%elem_of_cons; [discriminate Hc|].
    apply elem_of_app in Hc as [Hc|Hc]; [apply area_plan_elem in Hc; inversion Hc|].
    apply elem_of_app in Hc as [Hc|Hc]; [|done].
    apply visible_plan_elem in Hc as [[_ Hc]|Hc]; [inversion Hc|by apply elem_of_nil in Hc]. }
  destruct (visible_plan_cases o g reg) as [[Happ Hov]|Hstop].
  2:{ rewrite Hstop in Hplan. destruct (Hpre []) as [Hn|Hn]; [|by apply elem_of_nil in Hn].
      destruct Hn. by rewrite !app_nil_r. }
  rewrite Happ in Hin |- *. unfold final_plan in Hin |- *.
  set (adjust := (λ e, MapCalc e (GRASS_OVERWRITE g)) <$> option_list (adjustment o)) in *.
  set (p := guard_call :: area_plan o g ++ visible_plan o g reg [] ++ adjust).
  assert (Hsplit : guard_call :: area_plan o g
                   ++ visible_plan o g reg [] ++ adjust ++ [optimal_call o]
                   = p ++ [optimal_call o]).
  { unfold p. cbn. by rewrite <- !app_assoc. }
  rewrite Hsplit in Hin |- *. clear Hsplit.
  rewrite (attempt_reach _ _ _ _ _ Hin); cycle 1.
  { by intros ?%elem_of_nil. }
  { destruct (Hpre adjust) as [Hn|Hn]; [exact Hn|].
    apply list_elem_of_fmap in Hn as (e & He & _). discriminate He. }
  destruct (attempt_extends (fails g) ([] ++ ((., true) <$> p)) [optimal_call o])
    as (t & -> & _).
  split; intros H; apply elem_of_app; left; cbn [app];
    apply (list_elem_of_fmap_2 (λ c : call, (c, true)));
    unfold p; apply list_elem_of_further, elem_of_app.
  - left. by apply area_overlay_planned.
  - right. apply elem_of_app. left. by apply Hov.
Qed.

Lemma delegation_follows_the_exclusions_witness :
  let run := script sample_environ (view_options, no_flags)
               (boot (sample_session "10") sample_region) in
  (optimal_call view_options, true) ∈ trace run.2
  ∧ (visible_overlay_call view_options false, true) ∈ trace run.2.
Proof.
  intros run.
  assert (Hin : (optimal_call view_options, true) ∈ trace run.2) by in_trace.
  split; [exact Hin|].
  exact (proj2 (delegation_follows_the_exclusions (sample_session "10") sample_region
                  sample_environ (view_options, no_flags) true Hin) eq_refl).
Defined.

(** Property X4. At the end of a run in a session, the module-level list
    of line 212 is still empty, and the two registries of [main] hold, in
    order, the names of the intermediate maps whose creating call has
    returned, and [final_vis] from the moment its map algebra is called. *)
Theorem registries_follow_the_log g reg env argv :
  let run := script env argv (boot g reg) in
  heap run.2
  = match env !! "GISBASE" with
    | Some _ => [[]; names_of raster (trace run.2); names_of vector (trace run.2)]
    | None => [[]]
    end.
Proof.
  destruct argv as [o f]. intros run. subst run.
  destruct (env !! "GISBASE") as [v|] eqn:E.
  - rewrite (script_exact g reg env o f v E). cbn [snd heap trace].
    apply foldl_register.
  - by rewrite (script_no_session _ _ _ _ E).
Qed.

(** Property X5. A registry never holds the name of a map of the caller:
    the vector registry holds only [buff_area], [tmp1_river], [tmp_vis]
    and [tmp2_river], the raster registry only [final_vis],
    [tmp_discharge] and the [visual_i]. *)
Theorem registered_names_are_the_scripts_own g reg env argv k n :
  n ∈ names_at (heap (script env argv (boot g reg)).2) (ref_of 1 2 k) →
  match k with
  | vector => n ∈ ["buff_area"; "tmp1_river"; "tmp_vis"; "tmp2_river"]
  | raster => n = "final_vis" ∨ n = "tmp_discharge"
              ∨ ∃ i : nat, n = "visual_" +:+ pretty i
  end.
Proof.
  destruct argv as [o f]. destruct (env !! "GISBASE") as [v|] eqn:E.
  - pose proof (script_emitted g reg env (o, f)) as Hall.
    rewrite (script_exact g reg env o f v E) in Hall |- *. cbn [snd heap trace] in *.
    rewrite foldl_register. intros Hn.
    assert (n ∈ names_of k (attempt (fails g) [] (plan o g reg))) as Hn'
      by (by destruct k).
    apply names_of_elem in Hn' as (ev & Hev & Hi & _).
    rewrite Forall_forall in Hall. eapply emitted_intermediate; [|exact Hi].
    exact (Hall _ Hev).
  - rewrite (script_no_session _ _ _ _ E). destruct k; by intros ?%elem_of_nil.
Qed.

Lemma registered_names_are_the_scripts_own_witness :
  let run := script sample_environ (buffered_park_options, no_flags)
               (boot (sample_session "10") sample_region) in
  "tmp1_river" ∈ names_at (heap run.2) 2
  ∧ "tmp1_river" ∈ ["buff_area"; "tmp1_river"; "tmp_vis"; "tmp2_river"].
Proof.
  intros run.
  assert (Hin : "tmp1_river" ∈ names_at (heap run.2) (ref_of 1 2 vector))
    by (vm_compute; solve_elem).
  split; [exact Hin|].
  exact (registered_names_are_the_scripts_own (sample_session "10") sample_region
           sample_environ (buffered_park_options, no_flags) vector "tmp1_river" Hin).
Defined.

(** Property X6. No name is registered twice, in any list of the heap. *)
Theorem no_name_is_registered_twice g reg env argv l :
  NoDup (names_at (heap (script env argv (boot g reg)).2) l).
Proof.
  destruct argv as [o f]. destruct (env !! "GISBASE") as [v|] eqn:E.
  - rewrite (script_exact g reg env o f v E). cbn [snd heap]. rewrite foldl_register.
    cbn [app].
    assert (Hk : ∀ k, NoDup (names_of k (attempt (fails g) [] (plan o g reg)))).
    { intros k. destruct (names_of_attempt (fails g) [] (plan o g reg) k) as (l' & -> & Hl).
      destruct (creates_plan o g reg k) as (n & Hn). cbn [names_of omap list_omap app].
      apply (sublist_NoDup _ (temporaries k n));
        first [apply temporaries_NoDup | by trans (omap (creates k) (plan o g reg))]. }
    destruct l as [|[|[|l]]]; cbn; [constructor|apply Hk..|constructor].
  - rewrite (script_no_session _ _ _ _ E). destruct l; cbn; constructor.
Qed.

(** Property X7. Without viewpoints the script runs no [g.region] command
    and leaves the active region as it found it, whatever else fails. *)
Theorem region_untouched_without_viewpoints g reg env argv :
  Py.truth (Opt.points_view argv.1) = false →
  let run := script env argv (boot g reg) in
  region run.2 = reg
  ∧ ∀ prog kw ok, (RunCommand prog kw, ok) ∈ trace run.2 → prog ≠ "g.region".
Proof.
  intros Hpv run. subst run.
  assert (Hno : ∀ prog kw ok,
            (RunCommand prog kw, ok) ∈ trace (script env argv (boot g reg)).2 →
            prog ≠ "g.region").
  { intros prog kw ok Hin -> . pose proof (script_emitted g reg env argv) as Hall.
    rewrite Forall_forall in Hall. specialize (Hall _ Hin). cbn [fst] in Hall.
    inversion Hall as [|c' Hc|c' Hv Hc|c' Hc|]; subst.
    - inversion Hc.
    - congruence.
    - by destruct Hc as (exp & _ & ?). }
  split; [|exact Hno].
  destruct argv as [o f]. destruct (env !! "GISBASE") as [v|] eqn:E.
  - rewrite (script_exact g reg env o f v E) in Hno |- *. cbn [snd region trace] in *.
    apply foldl_inert, Forall_forall. intros [[prog kw| | |] []] Hin r; try done.
    cbn. destruct (String.eqb prog "g.region") eqn:Ep; [|done].
    apply String.eqb_eq in Ep. by destruct (Hno _ _ _ Hin).
  - by rewrite (script_no_session _ _ _ _ E).
Qed.

Lemma region_untouched_without_viewpoints_witness :
  Py.truth (Opt.points_view buffered_park_options) = false
  ∧ region (script sample_environ (buffered_park_options, no_flags)
              (boot (sample_session "10") sample_region)).2 = sample_region.
Proof.
  split; [reflexivity|].
  exact (proj1 (region_untouched_without_viewpoints (sample_session "10") sample_region
                  sample_environ (buffered_park_options, no_flags) eq_refl)).
Defined.

(** Property X8. The script restores the region on no failure path: when
    the resolution switch of [set_new_region] has returned and the run
    ends before the vectorisation, that is, before [set_old_region] has
    returned, the active region is left at the visibility resolution. *)
Theorem region_left_switched_on_failure g reg env argv :
  let run := script env argv (boot g reg) in
  let res := Opt.visibility_resolution argv.1 in
  (RunCommand "g.region" [("res", Py.Str res)], true) ∈ trace run.2 →
  unvectorised (GRASS_OVERWRITE g) run.2 →
  region run.2 = res_region g res reg.
Proof.
  destruct argv as [o f]. intros run res. subst run res. cbn [fst].
  destruct (env !! "GISBASE") as [v|] eqn:E.
  2:{ rewrite (script_no_session _ _ _ _ E). by intros ?%elem_of_nil. }
  unfold unvectorised. rewrite (script_exact g reg env o f v E). cbn [fst snd trace region].
  intros Hin Hun.
  pose proof Hin as Hplan.
  apply attempt_elem in Hplan as [Hplan|Hplan]; [by apply elem_of_nil in Hplan|].
  cbn [fst] in Hplan.
  destruct (plan_guarded _ _ _ _ Hplan) as (_ & _ & Hp); [done|].
  rewrite Hp in Hplan, Hin, Hun |- *. clear Hp.
  apply elem_of_cons in Hplan as [Hplan|Hplan]; [discriminate Hplan|].
  apply elem_of_app in Hplan as [Hplan|Hplan].
  { apply area_plan_elem in Hplan. inversion Hplan. }
  unfold visible_plan in Hplan, Hin, Hun |- *.
  destruct (Py.truth (Opt.points_view o)) eqn:Ev.
  2:{ by apply final_plan_elem in Hplan as [(e & _ & ?)|?]. }
  clear Hplan.
  set (rest := match view_map (Opt.points_view o) with Some _ => _ | None => _ end) in *.
  set (switch := RunCommand "g.region" _) in *.
  set (p := guard_call :: area_plan o g
            ++ [ParseCommand "g.region" [("flags", Py.Str "pg")]]).
  assert (Hsplit : guard_call :: area_plan o g
                   ++ ParseCommand "g.region" [("flags", Py.Str "pg")] :: switch :: rest
                   = p ++ switch :: rest).
  { unfold p. cbn. by rewrite <- !app_assoc. }
  rewrite Hsplit in Hin, Hun |- *. clear Hsplit.
  assert (Hp : Forall (λ c, quiet c = true) p).
  { unfold p. constructor; [done|]. apply Forall_app_2; [|by repeat constructor].
    apply Forall_forall. intros c. apply area_plan_quiet. }
  assert (Heq : attempt (fails g) [] (p ++ switch :: rest)
                = attempt (fails g) ([] ++ ((., true) <$> p) ++ [(switch, true)]) rest).
  { apply attempt_returned; [done|by intros ?%elem_of_nil|].
    intros Hc. rewrite Forall_forall in Hp. by specialize (Hp _ Hc). }
  rewrite Heq in Hun |- *. clear Heq Hin.
  cbn [app] in Hun |- *.
  assert (Hreg : foldl (region_step g) reg (((., true) <$> p) ++ [(switch, true)])
                 = res_region g (Opt.visibility_resolution o) reg).
  { rewrite foldl_app, foldl_quiet by done. reflexivity. }
  unfold rest in *. destruct (view_map (Opt.points_view o)) as [[pl mset]|].
  - rewrite unrestored_inert; [exact Hreg| |exact Hun].
    intros c (?&?&?&?&?&?&?&?& -> & _) [Hc|Hc]%elem_of_app.
    + apply list_elem_of_fmap in Hc as (c' & [= <-] & Hc').
      rewrite Forall_forall in Hp. by specialize (Hp _ Hc').
    + apply list_elem_of_singleton in Hc. discriminate Hc.
  - exact Hreg.
Qed.

Lemma region_left_switched_on_failure_witness :
  let run := script sample_environ (view_options, no_flags)
               (boot failing_viewshed_session sample_region) in
  (RunCommand "g.region" [("res", Py.Str "250")], true) ∈ trace run.2
  ∧ run.1 = 1
  ∧ region run.2 !! "nsres" = Some "250"
  ∧ sample_region !! "nsres" = Some "10".
Proof.
  intros run.
  assert (Hin : (RunCommand "g.region" [("res", Py.Str "250")], true) ∈ trace run.2)
    by in_trace.
  assert (Hun : unvectorised false run.2).
  { intros ok H. vm_compute in H.
    repeat (apply elem_of_cons in H as [H|H]; [discriminate H|]).
    by apply elem_of_nil in H. }
  split; [exact Hin|]. split; [by vm_compute|]. split; [|by vm_compute].
  unfold run.
  rewrite (region_left_switched_on_failure failing_viewshed_session sample_region
             sample_environ (view_options, no_flags) Hin Hun).
  by vm_compute.
Defined.

(** Property X9. The exit status is 0 or 1, and it is 0 exactly when the
    delegated routine has returned. In a session the script prints its
    completion message exactly then and nothing else, in particular never
    the warning of the region guard; outside a session it prints the
    request to run inside GRASS GIS. *)
Theorem completion_message_marks_success g reg env argv :
  let run := script env argv (boot g reg) in
  (run.1 = 0 ∨ run.1 = 1)
  ∧ (run.1 = 0 ↔ (optimal_call argv.1, true) ∈ trace run.2)
  ∧ stdout run.2
    = match env !! "GISBASE" with
      | None => ["You must be in GRASS GIS to run this program."]
      | Some _ => if bool_decide (run.1 = 0)
                  then ["r.green.hydro.recommended completed!"] else []
      end.
Proof.
  destruct argv as [o f]. intros run. subst run.
  destruct (env !! "GISBASE") as [v|] eqn:E.
  - rewrite (script_exact g reg env o f v E). cbn [fst snd stdout trace].
    case_bool_decide as Hd; cbn.
    + split_and!; [by left|done|done].
    + split_and!; [by right| |done]. split; [done|]. intros ?. by destruct Hd.
  - rewrite (script_no_session _ _ _ _ E). cbn.
    split_and!; [by right| |done]. split; [done|]. by intros ?%elem_of_nil.
Qed.

(** Property X10. A run ends with status 0 only on readable inputs: the
    region answers carry the keys the script reads, the viewpoint name
    unpacks into name and mapset, and [n_points] is an integer literal. *)
Theorem success_needs_readable_inputs g reg env argv :
  (script env argv (boot g reg)).1 = 0 → readable g reg argv.1.
Proof.
  destruct argv as [o f]. destruct (env !! "GISBASE") as [v|] eqn:E.
  - rewrite (script_exact g reg env o f v E). cbn [fst].
    case_bool_decide as Hd; [intros _|done].
    apply attempt_elem in Hd as [Hd|Hd]; [by apply elem_of_nil in Hd|].
    by apply plan_complete.
  - by rewrite (script_no_session _ _ _ _ E).
Qed.

Lemma success_needs_readable_inputs_witness :
  readable (sample_session "10") sample_region view_options.
Proof.
  apply (success_needs_readable_inputs (sample_session "10") sample_region
           sample_environ (view_options, no_flags)).
  by vm_compute.
Defined.

(** Property X11. The flags have no effect: two runs that differ in the
    flags only make the same calls with the same outcome, and end with
    the same status, region, registries, exit handler and output. *)
Theorem flags_do_not_matter g reg env o f f' :
  let run := script env (o, f) (boot g reg) in
  let run' := script env (o, f') (boot g reg) in
  run'.1 = run.1 ∧ trace run'.2 = trace run.2 ∧ region run'.2 = region run.2
  ∧ heap run'.2 = heap run.2 ∧ exitfuncs run'.2 = exitfuncs run.2
  ∧ stdout run'.2 = stdout run.2 ∧ deleted run'.2 = deleted run.2.
Proof.
  intros run run'. subst run run'.
  destruct (env !! "GISBASE") as [v|] eqn:E.
  - by rewrite !(script_exact g reg env o _ v E).
  - by rewrite !(script_no_session _ _ _ _ E).
Qed.

(** Property X12. A run depends on the options only as far as [relevant]
    keeps them: [buff] counts only with an area, the visibility
    resolution, [n_points] and [output_vis] only with viewpoints,
    [discharge_natural] and [percentage] only without [mfd], [percentage]
    only with a natural discharge. *)
Theorem run_depends_on_relevant_options g reg env o o' f :
  relevant o = relevant o' →
  let run := script env (o, f) (boot g reg) in
  let run' := script env (o', f) (boot g reg) in
  run'.1 = run.1 ∧ trace run'.2 = trace run.2 ∧ region run'.2 = region run.2
  ∧ heap run'.2 = heap run.2 ∧ exitfuncs run'.2 = exitfuncs run.2
  ∧ stdout run'.2 = stdout run.2 ∧ deleted run'.2 = deleted run.2.
Proof.
  intros Hrel run run'. subst run run'.
  destruct (env !! "GISBASE") as [v|] eqn:E.
  - rewrite !(script_exact g reg env _ _ v E).
    rewrite <- (plan_relevant o'), <- (optimal_relevant o'), <- Hrel.
    by rewrite plan_relevant, optimal_relevant.
  - by rewrite !(script_no_session _ _ _ _ E).
Qed.

Lemma run_depends_on_relevant_options_witness :
  let run := script sample_environ (plain_options, no_flags)
               (boot (sample_session "10") sample_region) in
  let run' := script sample_environ (careless_options, no_flags)
                (boot (sample_session "10") sample_region) in
  relevant plain_options = relevant careless_options
  ∧ Py.int (Opt.n_points careless_options) = None
  ∧ run'.1 = run.1 ∧ trace run'.2 = trace run.2.
Proof.
  intros run run'. split; [reflexivity|]. split; [reflexivity|].
  pose proof (run_depends_on_relevant_options (sample_session "10") sample_region
                sample_environ plain_options careless_options no_flags eq_refl) as H.
  split; [exact (proj1 H)|exact (proj1 (proj2 H))].
Defined.

(** Property X13. The overwrite setting of the session is handed to every
    call that writes a map, as a keyword argument or as the second
    argument of the map algebra, except to the delegated routine, which
    like the region commands gets no overwrite argument. *)
Theorem overwrite_goes_to_every_step_but_the_last g reg env argv c ok :
  (c, ok) ∈ trace (script env argv (boot g reg)).2 →
  match c with
  | RunCommand prog kw =>
      Py.kwarg "overwrite" kw
      = if String.eqb prog "g.region" || String.eqb prog "r.green.hydro.optimal"
        then None else Some (Py.Bool (GRASS_OVERWRITE g))
  | MapCalc _ ovw => ovw = GRASS_OVERWRITE g
  | ParseCommand _ kw => Py.kwarg "overwrite" kw = None
  | OpenVector _ _ => True
  end.
Proof.
  intros Hin. pose proof (script_emitted g reg env argv) as Hall.
  rewrite Forall_forall in Hall. specialize (Hall _ Hin). cbn [fst] in Hall.
  inversion Hall as [|c' Hc|c' Hv Hc|c' Hc|]; subst.
  - reflexivity.
  - by destruct Hc.
  - by destruct Hc.
  - by destruct Hc as (exp & _ & ->).
  - reflexivity.
Qed.

Lemma overwrite_goes_to_every_step_but_the_last_witness :
  let run := script sample_environ (buffered_park_options, no_flags)
               (boot (sample_session "10") sample_region) in
  (buffer_call buffered_park_options false, true) ∈ trace run.2
  ∧ Py.kwarg "overwrite"
      [("input", Py.Str "park"); ("output", Py.Str "buff_area");
       ("distance", Py.Str "50"); ("overwrite", Py.Bool false)]
    = Some (Py.Bool false).
Proof.
  intros run.
  assert (Hin : (buffer_call buffered_park_options false, true) ∈ trace run.2) by in_trace.
  split; [exact Hin|].
  exact (overwrite_goes_to_every_step_but_the_last (sample_session "10") sample_region
           sample_environ (buffered_park_options, no_flags) _ _ Hin).
Defined.

(** Property X14. [set_old_region] makes no call and leaves the state as
    it is when [info] lacks one of the eight keys: it raises the
    [KeyError] of the first key missing in the order in which the
    arguments are written. *)
Theorem set_old_region_needs_every_key info k st :
  List.find (λ k, bool_decide (info !! k = None)) keys_read = Some k →
  set_old_region info st = (inl (KeyError k), st).
Proof.
  unfold keys_read, set_old_region. cbn [List.find].
  repeat (case_bool_decide as Hk;
          [ intros [= <-]; unfold mbind, M_bind, getitem; rewrite ?Hk; reflexivity
          | destruct (info !! _) eqn:?; [clear Hk|done];
            unfold mbind at 1, M_bind at 1, getitem at 1;
            match goal with H : info !! _ = Some _ |- _ => rewrite H; clear H end;
            cbn [mret M_ret] ]).
  discriminate.
Qed.

Lemma set_old_region_needs_every_key_witness :
  set_old_region (delete "cols" sample_region) (boot (sample_session "10") sample_region)
  = (inl (KeyError "cols"), boot (sample_session "10") sample_region).
Proof.
  apply (set_old_region_needs_every_key (delete "cols" sample_region) "cols").
  reflexivity.
Defined.

(** Property X15. The viewpoint map the script opens is the option
    taken apart at its separator: with an [@] in the option, the option
    is the name, the [@] and the mapset, neither holding an [@]; without,
    the name is the option and the mapset is empty. *)
Theorem viewpoint_name_splits_at_the_separator g reg env argv pl mset ok :
  (OpenVector pl mset, ok) ∈ trace (script env argv (boot g reg)).2 →
  let points_view := Opt.points_view argv.1 in
  Py.contains "@" pl = false ∧ Py.contains "@" mset = false
  ∧ if Py.contains "@" points_view
    then points_view = pl +:+ "@" +:+ mset
    else points_view = pl ∧ mset = EmptyString.
Proof.
  intros Hin pv. subst pv. pose proof (script_emitted g reg env argv) as Hall.
  rewrite Forall_forall in Hall. specialize (Hall _ Hin). cbn [fst] in Hall.
  assert (Hv : view_map (Opt.points_view argv.1) = Some (pl, mset)).
  { inversion Hall as [|c' Hc|c' Hv Hc|c' Hc|]; subst.
    - inversion Hc.
    - by inversion Hc.
    - by destruct Hc as (exp & _ & ?). }
  unfold view_map in Hv.
  destruct (Py.contains "@" (Opt.points_view argv.1)) eqn:Ec.
  - destruct (join_split "@" (Opt.points_view argv.1)) as [Hj Hf].
    destruct (Py.split "@" (Opt.points_view argv.1)) as [|a [|b [|]]]; try done.
    injection Hv as -> ->. apply Forall_cons in Hf as [Ha Hf].
    apply Forall_cons in Hf as [Hb _]. by rewrite <- Hj.
  - injection Hv as <- <-. by rewrite Ec.
Qed.

Lemma viewpoint_name_splits_at_the_separator_witness :
  let run := script sample_environ (view_options, no_flags)
               (boot (sample_session "10") sample_region) in
  (OpenVector "viewpoints" "PERMANENT", true) ∈ trace run.2
  ∧ Opt.points_view view_options = "viewpoints" +:+ "@" +:+ "PERMANENT".
Proof.
  intros run.
  assert (Hin : (OpenVector "viewpoints" "PERMANENT", true) ∈ trace run.2) by in_trace.
  split; [exact Hin|].
  exact (proj2 (proj2 (viewpoint_name_splits_at_the_separator _ _ _ _ _ _ _ Hin))).
Defined.

(** Property X16. The delegated routine is called at most once, as the
    last call of a run and after every earlier call has returned. It is
    given the flag [c], the discharge and the river that the earlier steps
    leave, and the caller's elevation, plant lengths, outputs, distance,
    efficiency and minimum power as they are. *)
Theorem delegated_call_passes_the_options_on g reg env argv kw ok :
  let run := script env argv (boot g reg) in
  (RunCommand "r.green.hydro.optimal" kw, ok) ∈ trace run.2 →
  kw = [("flags", Py.Str "c"); ("discharge", Py.Str (usable_discharge argv.1));
        ("river", Py.Str (river2 argv.1)); ("elevation", Py.Str (Opt.elevation argv.1));
        ("len_plant", Py.Str (Opt.len_plant argv.1));
        ("output_plant", Py.Str (Opt.output_plant argv.1));
        ("output_point", Py.Str (Opt.output_point argv.1));
        ("distance", Py.Str (Opt.distance argv.1));
        ("len_min", Py.Str (Opt.len_min argv.1));
        ("efficiency", Py.Str (Opt.efficiency argv.1));
        ("p_min", Py.Str (Opt.p_min argv.1))]
  ∧ ∃ t, trace run.2 = t ++ [(RunCommand "r.green.hydro.optimal" kw, ok)]
         ∧ Forall (λ ev, ev.2 = true
                         ∧ ∀ kw', ev.1 ≠ RunCommand "r.green.hydro.optimal" kw') t.
Proof.
  intros run Hin. subst run.
  destruct (delegated_trace g reg env argv kw ok Hin) as (t0 & Ht & Hpre & Hok & Hkw).
  split; [by injection Hkw|].
  exists (t0 ++ ((λ e, (MapCalc e (GRASS_OVERWRITE g), true))
                   <$> option_list (adjustment argv.1))).
  rewrite Ht, Hkw, <- app_assoc. split; [done|].
  apply Forall_app_2.
  - rewrite Forall_forall in Hpre, Hok. apply Forall_forall. intros ev Hev.
    split; [by apply Hok|]. intros kw' Heq. specialize (Hpre _ Hev).
    rewrite Heq in Hpre. by destruct (prefix_not_optimal _ _ _ Hpre).
  - apply Forall_fmap, Forall_forall. by intros e _.
Qed.

Lemma delegated_call_passes_the_options_on_witness :
  let run := script sample_environ (mfd_options, no_flags)
               (boot (sample_session "10") sample_region) in
  (optimal_call mfd_options, true) ∈ trace run.2
  ∧ ∃ t, trace run.2 = t ++ [(optimal_call mfd_options, true)]
         ∧ Forall (λ ev, ev.2 = true
                         ∧ ∀ kw', ev.1 ≠ RunCommand "r.green.hydro.optimal" kw') t.
Proof.
  intros run.
  assert (Hin : (optimal_call mfd_options, true) ∈ trace run.2) by in_trace.
  split; [exact Hin|].
  exact (proj2 (delegated_call_passes_the_options_on (sample_session "10") sample_region
                  sample_environ (mfd_options, no_flags) _ true Hin)).
Defined.
